(** * Semantic analysis of Crema programs (src/semantics.cpp)

    A shallow embedding of the [SemanticContext] symbol tables and of
    the [semanticAnalysis] / [getType] / [checkRecursion] methods of the
    AST nodes, followed by the properties established about them. *)

From Stdlib Require Import ZArith Lia.
From stdpp Require Import base option list strings relations.

Local Open Scope Z_scope.

(** ** Machine integers

    Type codes are C++ [int]s (32 bits).  The literal [0xF0000000] does
    not fit in an [int], so it has type [unsigned int]; the bitwise or
    with an [int] is computed on the unsigned representation and the
    result wraps around when it is stored back into an [int]. *)

Definition to_unsigned (x : Z) : Z := x mod 2 ^ 32.

Definition to_int (x : Z) : Z := (x + 2 ^ 31) mod 2 ^ 32 - 2 ^ 31.

Definition LIST_FLAG : Z := 0xF0000000.

(** [0xF0000000 | type], stored in an [int]. *)
Definition listType (type : Z) : Z :=
  to_int (Z.lor LIST_FLAG (to_unsigned type)).

(** [scalar ? type : 0xF0000000 | type], stored in an [int]: both
    branches of the conditional are converted to [unsigned int]. *)
Definition condType (scalar : bool) (type : Z) : Z :=
  to_int (if scalar then to_unsigned type
          else Z.lor LIST_FLAG (to_unsigned type)).

Definition in_int_range (x : Z) : Prop := - 2 ^ 31 <= x < 2 ^ 31.

(** ** Abstract syntax

    Only the node classes whose methods live in semantics.cpp are
    spelled out.  [NValue] stands for the literal nodes declared in
    ast.h, whose type is a constant of the node. *)

#[local] Unset Elimination Schemes.

Inductive expr : Type :=
| NValue (type : Z)
| NList (value : list expr)
| NVariableAccess (ident : string)
| NFunctionCall (ident : string) (args : list expr)
| NBinaryOperator (op : Z) (lhs rhs : expr).

Record NVariableDeclaration : Type := mkVar {
  var_ident : string;
  var_type : Z;
  var_size : Z;
  initializationExpression : option expr
}.

Record NFunctionDeclaration_ (B : Type) : Type := mkFunc {
  func_ident : string;
  func_type : Z;
  listReturn : bool;
  variables : list NVariableDeclaration;
  body : B
}.

Arguments mkFunc {B} _ _ _ _ _.
Arguments func_ident {B} _.
Arguments func_type {B} _.
Arguments listReturn {B} _.
Arguments variables {B} _.
Arguments body {B} _.

(** Statements of a block.  [NExpressionStmt] is an expression node
    standing in statement position (a call used as a statement). *)
Inductive stmt : Type :=
| NBlock (statements : list stmt)
| NAssignmentStatement (ident : string) (e : expr)
| NReturn (retExpr : expr)
| NExpressionStmt (e : expr)
| NVariableDeclarationStmt (d : NVariableDeclaration)
| NFunctionDeclarationStmt (f : NFunctionDeclaration_ (list stmt)).

#[local] Set Elimination Schemes.

(** The body of a function is an [NBlock]: its list of statements. *)
Definition NFunctionDeclaration : Type := NFunctionDeclaration_ (list stmt).

(** ** The semantic context *)

Record SemanticContext : Type := mkCtx {
  currScope : Z;
  vars : list (list NVariableDeclaration);
  currType : list Z;
  funcs : list NFunctionDeclaration
}.

(** Lines written to [std::cout]. *)
Inductive diagnostic : Type :=
| BinaryOperatorMismatch (op : Z)
| AssignmentUndefined (ident : string)
| AssignmentMismatch (ident : string)
| ReturnMismatch (got expected : Z)
| CallArity (ident : string) (expected provided : nat)
| CallMismatch (ident : string)
| CallUndefined (ident : string)
| RecursiveCall (ident : string)
| DuplicateVar (ident : string)
| VarMismatch (ident : string).

(** Outcome of running a method: it returns, it runs into undefined
    behaviour (null dereference, access out of range, [back] or
    [pop_back] on an empty vector), or the call depth allowance of the
    model is used up. *)
Inductive outcome (A : Type) : Type :=
| Returns (a : A)
| Undefined
| Diverges.

Arguments Returns {A} _.
Arguments Undefined {A}.
Arguments Diverges {A}.

(** The state threaded through the analysis: the context and the
    diagnostics printed so far (oldest first). *)
Definition state : Type := SemanticContext * list diagnostic.

Definition M (A : Type) : Type := state -> outcome (A * state).

Definition ret {A} (a : A) : M A := fun st => Returns (a, st).

Definition bind {A B} (m : M A) (k : A -> M B) : M B :=
  fun st =>
    match m st with
    | Returns (a, st') => k a st'
    | Undefined => Undefined
    | Diverges => Diverges
    end.

Notation "x <~ m ;; k" := (bind m (fun x => k))
  (at level 100, m at next level, right associativity).
Notation "m ;;; k" := (bind m (fun _ => k))
  (at level 100, right associativity).

Definition getCtx : M SemanticContext := fun st => Returns (fst st, st).

Definition putCtx (ctx : SemanticContext) : M unit :=
  fun st => Returns (tt, (ctx, snd st)).

Definition print (d : diagnostic) : M unit :=
  fun st => Returns (tt, (fst st, snd st ++ [d])).

Definition undefined {A} : M A := fun _ => Undefined.

Definition lift {A} (o : outcome A) : M A :=
  fun st =>
    match o with
    | Returns a => Returns (a, st)
    | Undefined => Undefined
    | Diverges => Diverges
    end.

(** ** SemanticContext operations *)

Definition newScope (type : Z) : M unit :=
  ctx <~ getCtx ;;
  putCtx {| currScope := currScope ctx + 1;
            vars := vars ctx ++ [[]];
            currType := currType ctx ++ [type];
            funcs := funcs ctx |}.

Definition delScope : M unit :=
  ctx <~ getCtx ;;
  match vars ctx, currType ctx with
  | _ :: _, _ :: _ =>
      putCtx {| currScope := currScope ctx - 1;
                vars := removelast (vars ctx);
                currType := removelast (currType ctx);
                funcs := funcs ctx |}
  | _, _ => undefined
  end.

(** [vars[currScope]]: undefined behaviour outside the vector. *)
Definition scopeAt (ctx : SemanticContext) : option (list NVariableDeclaration) :=
  if 0 <=? currScope ctx then vars ctx !! Z.to_nat (currScope ctx) else None.

Definition registerVar (var : NVariableDeclaration) : M bool :=
  ctx <~ getCtx ;;
  match scopeAt ctx with
  | None => undefined
  | Some scope =>
      if existsb (fun v => bool_decide (var_ident var = var_ident v)) scope
      then ret false
      else
        putCtx {| currScope := currScope ctx;
                  vars := <[Z.to_nat (currScope ctx) := scope ++ [var]]> (vars ctx);
                  currType := currType ctx;
                  funcs := funcs ctx |} ;;;
        ret true
  end.

Definition registerFunc (func : NFunctionDeclaration) : M bool :=
  ctx <~ getCtx ;;
  if existsb (fun f => bool_decide (func_ident func = func_ident f)) (funcs ctx)
  then ret false
  else
    putCtx {| currScope := currScope ctx;
              vars := vars ctx;
              currType := currType ctx;
              funcs := funcs ctx ++ [func] |} ;;;
    ret true.

(** Innermost scope first; within a scope, first match in insertion order. *)
Fixpoint searchScopes (ident : string) (scopes : list (list NVariableDeclaration))
  : option NVariableDeclaration :=
  match scopes with
  | [] => None
  | scope :: rest =>
      match find (fun v => bool_decide (ident = var_ident v)) scope with
      | Some v => Some v
      | None => searchScopes ident rest
      end
  end.

Definition searchVars (ctx : SemanticContext) (ident : string)
  : option NVariableDeclaration :=
  searchScopes ident (rev (vars ctx)).

Definition searchFuncs (ctx : SemanticContext) (ident : string)
  : option NFunctionDeclaration :=
  find (fun f => bool_decide (ident = func_ident f)) (funcs ctx).

(** Modelled from the spec: the constructor [SemanticContext()] is
    declared in semantics.h and defined outside semantics.cpp; it
    "creates the root (empty) scope", with return type [0] (void). *)
Definition rootCtx : SemanticContext :=
  {| currScope := 0; vars := [[]]; currType := [0]; funcs := [] |}.

(** [currScope] is the index of the innermost scope. *)
Definition indexed (ctx : SemanticContext) : Prop :=
  currScope ctx = Z.of_nat (length (vars ctx)) - 1.

(** The scope stack and the expected-return-type stack are level. *)
Definition balanced (ctx : SemanticContext) : Prop :=
  length (vars ctx) = length (currType ctx).

(** An identifier is declared in a scope. *)
Definition declaredIn (ident : string) (scope : list NVariableDeclaration) : Prop :=
  exists v, v ∈ scope /\ var_ident v = ident.

(** [ctx'] is [ctx] with [k] more scopes: the registry is the same,
    and the scope index and both stacks have moved by [k]. *)
Definition shifted (k : Z) (ctx ctx' : SemanticContext) : Prop :=
  funcs ctx' = funcs ctx /\
  currScope ctx' = currScope ctx + k /\
  Z.of_nat (length (vars ctx')) = Z.of_nat (length (vars ctx)) + k /\
  Z.of_nat (length (currType ctx')) = Z.of_nat (length (currType ctx)) + k.

(** What the check of a statement may do to the context: it leaves
    [k >= 0] scopes behind, none when it succeeds. *)
Definition leaves (analyse : M bool) : Prop :=
  forall ctx out b ctx' out',
    analyse (ctx, out) = Returns (b, (ctx', out')) ->
    exists k, 0 <= k /\ shifted k ctx ctx' /\ (b = true -> k = 0).

(** ** Further notions used by the properties *)

(** A base type code that does not reach the four flag bits. *)
Definition flagFree (type : Z) : Prop := 0 <= type < 2 ^ 28.

(** No scope declares an identifier twice. *)
Definition uniqueScopes (ctx : SemanticContext) : Prop :=
  Forall (fun scope => NoDup (map var_ident scope)) (vars ctx).

(** No two registered functions share an identifier. *)
Definition uniqueFuncs (ctx : SemanticContext) : Prop :=
  NoDup (map func_ident (funcs ctx)).

(** What [registerVar] makes of the scope it looks at. *)
Definition registerInto (scope : list NVariableDeclaration)
    (var : NVariableDeclaration) : list NVariableDeclaration :=
  if existsb (fun v => bool_decide (var_ident var = var_ident v)) scope
  then scope else scope ++ [var].

(** ** The registry of structures

    Modelled from the spec: [NStructureDeclaration] is declared in
    ast.h; it is an "identifier plus member declarations". *)
Record NStructureDeclaration : Type := mkStruct {
  struct_ident : string;
  members : list NVariableDeclaration
}.

(** [registerStruct] and [searchStructs] read and write the [structs]
    member of the context and nothing else; that vector is threaded on
    its own here. *)
Definition registerStruct (s : NStructureDeclaration)
    (structs : list NStructureDeclaration) : bool * list NStructureDeclaration :=
  if existsb (fun s' => bool_decide (struct_ident s = struct_ident s')) structs
  then (false, structs)
  else (true, structs ++ [s]).

Definition searchStructs (structs : list NStructureDeclaration) (ident : string)
  : option NStructureDeclaration :=
  find (fun s => bool_decide (ident = struct_ident s)) structs.

(** What the check of a statement never does: it never drops or
    rewrites a scope below the innermost one, and never drops an
    expected return type. *)
Definition framed (analyse : M bool) : Prop :=
  forall ctx out b ctx' out',
    analyse (ctx, out) = Returns (b, (ctx', out')) ->
    indexed ctx -> vars ctx <> [] ->
    removelast (vars ctx) `prefix_of` vars ctx' /\
    currType ctx `prefix_of` currType ctx'.

(** ** Sample programs *)

(** A call used as a statement, without arguments. *)
Definition callStmt (ident : string) : stmt :=
  NExpressionStmt (NFunctionCall ident []).

(** Two declarations of [x], of different types. *)
Definition outerX : NVariableDeclaration := mkVar "x" 1 1 None.
Definition innerX : NVariableDeclaration := mkVar "x" 2 1 None.

(** [x] of type 1 initialised with a value of type 2. *)
Definition badX : NVariableDeclaration := mkVar "x" 1 1 (Some (NValue 2)).

(** A function with one scalar parameter of type 1. *)
Definition scalarParam : NVariableDeclaration := mkVar "n" 1 1 None.
Definition takesScalar : NFunctionDeclaration := mkFunc "f" 0 false [scalarParam] [].
Definition takesScalarCtx : SemanticContext :=
  {| currScope := 0; vars := [[]]; currType := [0]; funcs := [takesScalar] |}.

(** [f] calls itself. *)
Definition selfF : NFunctionDeclaration := mkFunc "f" 0 false [] [callStmt "f"].
Definition selfCtx : SemanticContext :=
  {| currScope := 0; vars := [[]]; currType := [0]; funcs := [selfF] |}.

(** [f] calls [g] and [g] calls [f]. *)
Definition mutualF : NFunctionDeclaration := mkFunc "f" 0 false [] [callStmt "g"].
Definition mutualG : NFunctionDeclaration := mkFunc "g" 0 false [] [callStmt "f"].
Definition mutualCtx : SemanticContext :=
  {| currScope := 0; vars := [[]]; currType := [0]; funcs := [mutualF; mutualG] |}.

(** [main] calls [leaf], which calls nothing. *)
Definition chainMain : NFunctionDeclaration := mkFunc "main" 0 false [] [callStmt "leaf"].
Definition chainLeaf : NFunctionDeclaration := mkFunc "leaf" 0 false [] [].
Definition chainCtx : SemanticContext :=
  {| currScope := 0; vars := [[]]; currType := [0]; funcs := [chainMain; chainLeaf] |}.

(** A program whose call graph has a cycle away from [A]: [A] calls
    [B], [B] calls [C] and [C] calls [B]. *)
Definition cycleA : NFunctionDeclaration := mkFunc "A" 0 false [] [callStmt "B"].
Definition cycleB : NFunctionDeclaration := mkFunc "B" 0 false [] [callStmt "C"].
Definition cycleC : NFunctionDeclaration := mkFunc "C" 0 false [] [callStmt "B"].

Definition cycleCtx : SemanticContext :=
  {| currScope := 0; vars := [[]]; currType := [0];
     funcs := [cycleA; cycleB; cycleC] |}.

(** A scalar [x] and a list [y] of the same base type, in one scope. *)
Definition listY : NVariableDeclaration := mkVar "y" 1 3 None.
Definition xyCtx : SemanticContext :=
  {| currScope := 0; vars := [[outerX; listY]]; currType := [0]; funcs := [] |}.

(** [x] declared in a scope and again in a scope nested in it. *)
Definition nestedCtx : SemanticContext :=
  {| currScope := 1; vars := [[outerX]; [innerX]]; currType := [0; 0]; funcs := [] |}.

(** [f], of return type 1, returns the result of calling itself. *)
Definition returnSelf : NFunctionDeclaration :=
  mkFunc "f" 1 false [] [NReturn (NFunctionCall "f" [])].
Definition returnSelfCtx : SemanticContext :=
  {| currScope := 0; vars := [[]]; currType := [0]; funcs := [returnSelf] |}.

(** A function with two parameters named [n]. *)
Definition twiceN : NFunctionDeclaration :=
  mkFunc "h" 0 false [scalarParam; mkVar "n" 2 1 None] [].

(** A structure. *)
Definition pointS : NStructureDeclaration := mkStruct "point" [outerX].


(** ** Methods of the AST nodes *)

Section Methods.

(** Methods that semantics.cpp does not define come from ast.h: the
    verdicts of the [Node] base class for [semanticAnalysis] and
    [checkRecursion], and the type of a binary operation.  They are
    left abstract. *)
Variable Node_semanticAnalysis : bool.
Variable Node_checkRecursion : bool.
Variable NBinaryOperator_getType : SemanticContext -> Z -> expr -> expr -> Z.

(** The loop of [NList::getType] over [value[1..]]. *)
Fixpoint sameTypes (getType : expr -> Z) (type : Z) (rest : list expr) : bool :=
  match rest with
  | [] => true
  | e :: rest' =>
      if bool_decide (getType e = type) then sameTypes getType type rest'
      else false
  end.

Fixpoint getType (ctx : SemanticContext) (e : expr) : Z :=
  match e with
  | NValue type => type
  | NList value =>
      match value with
      | [] => 0
      | first :: rest =>
          let type := getType ctx first in
          if sameTypes (getType ctx) type rest then listType type else 0
      end
  | NVariableAccess ident =>
      match searchVars ctx ident with
      | Some var => condType (bool_decide (var_size var = 1)) (var_type var)
      | None => 0
      end
  | NFunctionCall ident _ =>
      match searchFuncs ctx ident with
      | Some func => condType (negb (listReturn func)) (func_type func)
      | None => 0
      end
  | NBinaryOperator op lhs rhs => NBinaryOperator_getType ctx op lhs rhs
  end.

(** The argument loop of [NFunctionCall::semanticAnalysis]; it is
    entered only once both vectors are known to have the same size. *)
Fixpoint argsMatch (ctx : SemanticContext) (args : list expr)
    (params : list NVariableDeclaration) : bool :=
  match args, params with
  | a :: args', p :: params' =>
      if bool_decide (getType ctx a = var_type p) then argsMatch ctx args' params'
      else false
  | _, _ => true
  end.

Definition NBinaryOperator_semanticAnalysis (op : Z) (lhs rhs : expr) : M bool :=
  ctx <~ getCtx ;;
  if bool_decide (getType ctx lhs = getType ctx rhs) then ret true
  else print (BinaryOperatorMismatch op) ;;; ret false.

Definition NFunctionCall_semanticAnalysis (ident : string) (args : list expr) : M bool :=
  ctx <~ getCtx ;;
  match searchFuncs ctx ident with
  | Some func =>
      if bool_decide (length (variables func) = length args) then
        if argsMatch ctx args (variables func) then ret true
        else print (CallMismatch ident) ;;; ret false
      else
        print (CallArity ident (length (variables func)) (length args)) ;;;
        ret false
  | None => print (CallUndefined ident) ;;; ret false
  end.

(** Virtual dispatch of [semanticAnalysis] on an expression node. *)
Definition expr_semanticAnalysis (e : expr) : M bool :=
  match e with
  | NBinaryOperator op lhs rhs => NBinaryOperator_semanticAnalysis op lhs rhs
  | NFunctionCall ident args => NFunctionCall_semanticAnalysis ident args
  | _ => ret Node_semanticAnalysis
  end.

(** The loop of [NBlock::checkRecursion]. *)
Fixpoint anyRecursion (check : stmt -> outcome bool) (statements : list stmt)
  : outcome bool :=
  match statements with
  | [] => Returns false
  | s :: rest =>
      match check s with
      | Returns true => Returns true
      | Returns false => anyRecursion check rest
      | Undefined => Undefined
      | Diverges => Diverges
      end
  end.

(** One node of the traversal; [callee] is what happens when the body
    of a resolved callee is entered. *)
Fixpoint checkRecursion_node (ctx : SemanticContext) (func : NFunctionDeclaration)
    (callee : NFunctionDeclaration -> outcome bool) (s : stmt) : outcome bool :=
  match s with
  | NBlock statements =>
      anyRecursion (checkRecursion_node ctx func callee) statements
  | NExpressionStmt (NFunctionCall ident _) =>
      if bool_decide (func_ident func = ident) then Returns true
      else
        match searchFuncs ctx ident with
        | Some g => callee g
        | None => Undefined
        end
  | _ => Returns Node_checkRecursion
  end.

(** [fuel] bounds the depth of the chain of callee bodies entered. *)
Fixpoint checkRecursion (fuel : nat) (ctx : SemanticContext)
    (func : NFunctionDeclaration) (s : stmt) : outcome bool :=
  match fuel with
  | O => checkRecursion_node ctx func (fun _ => Diverges) s
  | S fuel' =>
      checkRecursion_node ctx func
        (fun g => checkRecursion fuel' ctx func (NBlock (body g))) s
  end.

(** [ctx->currType.back()]. *)
Definition currTypeBack : M Z :=
  ctx <~ getCtx ;;
  match last (currType ctx) with
  | Some type => ret type
  | None => undefined
  end.

(** The statement loop of [NBlock::semanticAnalysis]. *)
Fixpoint allStatements (analyse : stmt -> M bool) (statements : list stmt) : M bool :=
  match statements with
  | [] => ret true
  | s :: rest =>
      ok <~ analyse s ;;
      if ok then allStatements analyse rest else ret false
  end.

Definition NBlock_semanticAnalysis (analyse : stmt -> M bool)
    (statements : list stmt) : M bool :=
  type <~ currTypeBack ;;
  newScope type ;;;
  ok <~ allStatements analyse statements ;;
  if ok then delScope ;;; ret true else ret false.

Fixpoint registerAll (variables : list NVariableDeclaration) : M unit :=
  match variables with
  | [] => ret tt
  | var :: rest => registerVar var ;;; registerAll rest
  end.

Definition NAssignmentStatement_semanticAnalysis (ident : string) (e : expr) : M bool :=
  ctx <~ getCtx ;;
  let var := searchVars ctx ident in
  (* [var->size] and [var->type] are read before [var] is tested *)
  type <~ match var with
          | Some v => ret (condType (bool_decide (var_size v = 1)) (var_type v))
          | None => undefined
          end ;;
  match var with
  | None => print (AssignmentUndefined ident) ;;; ret false
  | Some _ =>
      if bool_decide (type = getType ctx e) then ret true
      else print (AssignmentMismatch ident) ;;; ret false
  end.

Definition NReturn_semanticAnalysis (retExpr : expr) : M bool :=
  ctx <~ getCtx ;;
  expected <~ currTypeBack ;;
  if bool_decide (getType ctx retExpr = expected) then ret true
  else print (ReturnMismatch (getType ctx retExpr) expected) ;;; ret false.

Definition NVariableDeclaration_semanticAnalysis (d : NVariableDeclaration) : M bool :=
  let ltype := condType (bool_decide (var_size d = 1)) (var_type d) in
  registered <~ registerVar d ;;
  if registered then
    match initializationExpression d with
    | Some init =>
        ctx <~ getCtx ;;
        if bool_decide (getType ctx init = ltype) then
          ok <~ expr_semanticAnalysis init ;;
          if ok then ret true
          else print (VarMismatch (var_ident d)) ;;; ret false
        else print (VarMismatch (var_ident d)) ;;; ret false
    | None => ret true
    end
  else print (DuplicateVar (var_ident d)) ;;; ret false.

(** The first lines of [NFunctionDeclaration::semanticAnalysis]: the
    scope of the function is pushed and its parameters are registered
    in it, whatever [registerVar] answers. *)
Definition enterFunction (f : NFunctionDeclaration) : M unit :=
  newScope (condType (negb (listReturn f)) (func_type f)) ;;;
  registerAll (variables f).

Fixpoint semanticAnalysis (fuel : nat) (s : stmt) : M bool :=
  match s with
  | NBlock statements => NBlock_semanticAnalysis (semanticAnalysis fuel) statements
  | NAssignmentStatement ident e => NAssignmentStatement_semanticAnalysis ident e
  | NReturn retExpr => NReturn_semanticAnalysis retExpr
  | NExpressionStmt e => expr_semanticAnalysis e
  | NVariableDeclarationStmt d => NVariableDeclaration_semanticAnalysis d
  | NFunctionDeclarationStmt f =>
      enterFunction f ;;;
      blockSA <~ NBlock_semanticAnalysis (semanticAnalysis fuel) (body f) ;;
      ctx <~ getCtx ;;
      blockRecur <~ lift (checkRecursion fuel ctx f (NBlock (body f))) ;;
      (if blockRecur then print (RecursiveCall (func_ident f)) else ret tt) ;;;
      delScope ;;;
      ret (blockSA && negb blockRecur)
  end.

(** ** The call graph seen by the recursion check *)

(** The calls of a statement that [checkRecursion] looks at: calls in
    statement position, through nested blocks. *)
Fixpoint callees (s : stmt) : list string :=
  match s with
  | NBlock statements => concat (map callees statements)
  | NExpressionStmt (NFunctionCall ident _) => [ident]
  | _ => []
  end.

(** [f] is registered and its body calls [g]. *)
Definition calls (ctx : SemanticContext) (f g : string) : Prop :=
  exists fd, searchFuncs ctx f = Some fd /\ g ∈ callees (NBlock (body fd)).

(** The traversal for [target] enters the body of [f] and meets a call
    of [g] there. *)
Definition follows (ctx : SemanticContext) (target f g : string) : Prop :=
  f <> target /\ calls ctx f g.

(** The callees the traversal for [target], started at [s], can meet. *)
Definition visits (ctx : SemanticContext) (target : string) (s : stmt) (g : string) : Prop :=
  exists g0, g0 ∈ callees s /\ rtc (follows ctx target) g0 g.

(** No registered function calls itself through a chain of calls. *)
Definition acyclic (ctx : SemanticContext) : Prop :=
  forall f, ~ tc (calls ctx) f f.

(** Every call in the body of a registered function names a
    registered function. *)
Definition resolved (ctx : SemanticContext) : Prop :=
  forall f g, calls ctx f g -> is_Some (searchFuncs ctx g).

(** The diagnostics of a check: what it prints comes after what was
    printed before, nothing is printed on success, and, when the nodes
    that inherit [semanticAnalysis] pass, something is printed on
    failure. *)
Definition reports (analyse : M bool) : Prop :=
  forall ctx out b ctx' out',
    analyse (ctx, out) = Returns (b, (ctx', out')) ->
    exists printed,
      out' = out ++ printed /\
      (b = true -> printed = []) /\
      (Node_semanticAnalysis = true -> b = false -> printed <> []).

(** ** Properties *)

(** Induction on statements, through blocks and function bodies. *)
Section StmtInd.
Variable P : stmt -> Prop.
Hypothesis HBlock : forall statements, Forall P statements -> P (NBlock statements).
Hypothesis HAssign : forall ident e, P (NAssignmentStatement ident e).
Hypothesis HReturn : forall retExpr, P (NReturn retExpr).
Hypothesis HExpr : forall e, P (NExpressionStmt e).
Hypothesis HVar : forall d, P (NVariableDeclarationStmt d).
Hypothesis HFunc : forall f : NFunctionDeclaration,
    Forall P (body f) -> P (NFunctionDeclarationStmt f).

Fixpoint stmt_nested_ind (s : stmt) : P s :=
  let all :=
    fix all (l : list stmt) : Forall P l :=
      match l with
      | [] => List.Forall_nil P
      | s' :: l' => List.Forall_cons P s' l' (stmt_nested_ind s') (all l')
      end in
  match s with
  | NBlock statements => HBlock statements (all statements)
  | NAssignmentStatement ident e => HAssign ident e
  | NReturn retExpr => HReturn retExpr
  | NExpressionStmt e => HExpr e
  | NVariableDeclarationStmt d => HVar d
  | NFunctionDeclarationStmt f => HFunc f (all (body f))
  end.
End StmtInd.

(** *** The state monad *)

Lemma bind_Returns {A B} (m : M A) (k : A -> M B) st r :
  bind m k st = Returns r ->
  exists a st', m st = Returns (a, st') /\ k a st' = Returns r.
Proof.
  unfold bind. destruct (m st) as [[a st'] | |]; [eauto | discriminate | discriminate].
Qed.

Lemma lift_Returns {A} (o : outcome A) st r :
  lift o st = Returns r -> o = Returns (fst r) /\ snd r = st.
Proof.
  unfold lift. destruct o; [| discriminate | discriminate].
  intros Heq. injection Heq as <-. auto.
Qed.


(** *** Type encoding *)

Lemma to_int_range x : in_int_range (to_int x).
Proof.
  unfold in_int_range, to_int.
  pose proof (Z.mod_pos_bound (x + 2 ^ 31) (2 ^ 32) ltac:(lia)). lia.
Qed.

Lemma to_int_to_unsigned x : in_int_range x -> to_int (to_unsigned x) = x.
Proof.
  unfold in_int_range, to_int, to_unsigned. intros Hx.
  rewrite Zplus_mod_idemp_l.
  rewrite Z.mod_small by lia. lia.
Qed.

Lemma condType_scalar type : in_int_range type -> condType true type = type.
Proof. apply to_int_to_unsigned. Qed.

Lemma condType_list type : condType false type = listType type.
Proof. reflexivity. Qed.

Lemma to_int_testbit x i : 0 <= i < 32 -> Z.testbit (to_int x) i = Z.testbit x i.
Proof.
  intros Hi. unfold to_int.
  replace ((x + 2 ^ 31) mod 2 ^ 32 - 2 ^ 31)
    with (x + (- ((x + 2 ^ 31) / 2 ^ 32)) * 2 ^ 32)
    by (pose proof (Z.div_mod (x + 2 ^ 31) (2 ^ 32) ltac:(lia)); lia).
  rewrite <- (Z.mod_pow2_bits_low _ 32 i) by lia.
  rewrite Z_mod_plus_full.
  apply Z.mod_pow2_bits_low. lia.
Qed.

Lemma to_unsigned_testbit x i : 0 <= i < 32 -> Z.testbit (to_unsigned x) i = Z.testbit x i.
Proof. intros Hi. unfold to_unsigned. apply Z.mod_pow2_bits_low. lia. Qed.

(** The four top bits of a list type are set, the low 28 bits are
    those of the element type. *)
Lemma listType_bits type i :
  0 <= i < 32 ->
  Z.testbit (listType type) i = (28 <=? i) || Z.testbit type i.
Proof.
  intros Hi. unfold listType.
  rewrite to_int_testbit, Z.lor_spec, to_unsigned_testbit by lia.
  f_equal. unfold LIST_FLAG.
  assert (Hc : i = 0 \/ i = 1 \/ i = 2 \/ i = 3 \/ i = 4 \/ i = 5 \/ i = 6 \/ i = 7 \/
               i = 8 \/ i = 9 \/ i = 10 \/ i = 11 \/ i = 12 \/ i = 13 \/ i = 14 \/ i = 15 \/
               i = 16 \/ i = 17 \/ i = 18 \/ i = 19 \/ i = 20 \/ i = 21 \/ i = 22 \/ i = 23 \/
               i = 24 \/ i = 25 \/ i = 26 \/ i = 27 \/ i = 28 \/ i = 29 \/ i = 30 \/ i = 31)
    by lia.
  repeat (destruct Hc as [-> | Hc]; [reflexivity |]). subst i. reflexivity.
Qed.

(** A type code without flag bits differs from its list type. *)
Lemma listType_neq type : 0 <= type < 2 ^ 28 -> listType type <> type.
Proof.
  intros Ht Heq.
  pose proof (listType_bits type 28 ltac:(lia)) as Hb.
  rewrite Heq in Hb. change (28 <=? 28) with true in Hb.
  rewrite orb_true_l in Hb.
  rewrite (Z.bits_above_log2 type 28) in Hb; [discriminate | lia |].
  destruct (Z.eq_dec type 0) as [-> | Hne]; [simpl; lia |].
  apply Z.log2_lt_pow2; lia.
Qed.

(** *** List literals *)

Lemma sameTypes_true f type rest :
  sameTypes f type rest = true <-> Forall (fun e => f e = type) rest.
Proof.
  induction rest as [| e rest IH]; simpl.
  - split; [constructor | reflexivity].
  - case_bool_decide as He.
    + rewrite IH. split; [intros; constructor; assumption |].
      intros H. inversion H; assumption.
    + split; [discriminate |]. intros H. inversion H; subst. contradiction.
Qed.

Lemma sameTypes_false f type rest :
  sameTypes f type rest = false <-> Exists (fun e => f e <> type) rest.
Proof.
  induction rest as [| e rest IH]; simpl.
  - split; [discriminate |]. intros H. inversion H.
  - case_bool_decide as He.
    + rewrite IH. split; [intros; apply Exists_cons_tl; assumption |].
      intros H. inversion H; subst; [contradiction | assumption].
    + split; [| reflexivity]. intros _. apply Exists_cons_hd. assumption.
Qed.

(** C6.  [NList::getType] answers [0] for the empty list.  For a
    non-empty list whose elements all have type [T] it answers [T]
    with the list flag set: the value [0xF0000000 | T] stored in an
    [int], whose four top bits are set and whose 28 low bits are those
    of [T]; that value is never [0], and it is not [T] when [T] has no
    flag bit.  When some element's type differs from the first
    element's it answers [0], the value it also gives for the empty
    list. *)
Theorem NList_getType_cases (ctx : SemanticContext) :
  getType ctx (NList []) = 0 /\
  (forall first rest T,
      getType ctx first = T ->
      Forall (fun e => getType ctx e = T) rest ->
      getType ctx (NList (first :: rest))
      = (Z.lor 0xF0000000 (T mod 2 ^ 32) + 2 ^ 31) mod 2 ^ 32 - 2 ^ 31 /\
      (forall i, 0 <= i < 32 ->
                 Z.testbit (getType ctx (NList (first :: rest))) i
                 = (28 <=? i) || Z.testbit T i) /\
      getType ctx (NList (first :: rest)) <> 0 /\
      (0 <= T < 2 ^ 28 -> getType ctx (NList (first :: rest)) <> T)) /\
  (forall first rest,
      Exists (fun e => getType ctx e <> getType ctx first) rest ->
      getType ctx (NList (first :: rest)) = 0).
Proof.
  split; [reflexivity |]. split.
  - intros first rest T HT Hall.
    change (getType ctx (NList (first :: rest)))
      with (if sameTypes (getType ctx) (getType ctx first) rest
            then listType (getType ctx first) else 0).
    rewrite HT. apply sameTypes_true in Hall. rewrite Hall.
    split; [reflexivity |]. split; [apply listType_bits |].
    split; [| apply listType_neq].
    intros Hzero. pose proof (listType_bits T 31 ltac:(lia)) as Hbit.
    rewrite Hzero, Z.bits_0 in Hbit. discriminate.
  - intros first rest Hex.
    change (getType ctx (NList (first :: rest)))
      with (if sameTypes (getType ctx) (getType ctx first) rest
            then listType (getType ctx first) else 0).
    apply sameTypes_false in Hex. rewrite Hex. reflexivity.
Qed.

(** *** Statement checks *)

Ltac run :=
  unfold NReturn_semanticAnalysis, NAssignmentStatement_semanticAnalysis,
    NFunctionCall_semanticAnalysis, NBinaryOperator_semanticAnalysis,
    currTypeBack, bind, ret, getCtx, putCtx, print, undefined, lift;
  cbn [fst snd].

(** C8.  With [expected] on top of the expected-return-type stack, the
    check of a return statement returns without touching the context,
    and it succeeds exactly when the type of the returned expression
    is [expected]; otherwise it prints the mismatch. *)
Theorem NReturn_semanticAnalysis_iff (fuel : nat) (retExpr : expr)
    (ctx : SemanticContext) (out : list diagnostic) (expected : Z) :
  last (currType ctx) = Some expected ->
  exists b out',
    semanticAnalysis fuel (NReturn retExpr) (ctx, out) = Returns (b, (ctx, out')) /\
    (b = true <-> getType ctx retExpr = expected) /\
    out' = (if b then out
            else out ++ [ReturnMismatch (getType ctx retExpr) expected]).
Proof.
  intros Hlast. cbn [semanticAnalysis]. run. rewrite Hlast.
  case_bool_decide as Heq.
  - exists true, out. cbn. repeat split; auto.
  - exists false, (out ++ [ReturnMismatch (getType ctx retExpr) expected]).
    cbn. repeat split; auto. discriminate.
Qed.

(** C1.  When the target of an assignment is found in no scope, the
    check reads [var->size] through the null result of [searchVars]
    before it tests it: the outcome is undefined behaviour, and the
    branch that prints the diagnostic and returns false is never
    reached. *)
Theorem NAssignmentStatement_absent_target (fuel : nat) (ident : string) (e : expr)
    (ctx : SemanticContext) (out : list diagnostic) :
  searchVars ctx ident = None ->
  semanticAnalysis fuel (NAssignmentStatement ident e) (ctx, out) = Undefined.
Proof.
  intros Hnone. cbn [semanticAnalysis]. run. rewrite Hnone. reflexivity.
Qed.

Lemma argsMatch_Forall2 ctx args params :
  length params = length args ->
  argsMatch ctx args params = true <->
  Forall2 (fun a p => getType ctx a = var_type p) args params.
Proof.
  revert params. induction args as [| a args IH]; intros [| p params] Hlen;
    try discriminate; simpl.
  - split; [constructor | reflexivity].
  - injection Hlen as Hlen. case_bool_decide as Heq.
    + rewrite (IH params Hlen). split; [intros; constructor; assumption |].
      intros H. inversion H; assumption.
    + split; [discriminate |]. intros H. inversion H; subst. contradiction.
Qed.

(** C2 (amended).  Once the callee resolves and the arity check
    passes, the call passes exactly when every argument's computed
    type is equal to the declared base type of the parameter at the
    same position (the parameter's size is not consulted); a list
    valued argument whose base type, free of flag bits, is the base
    type of the parameter is therefore rejected with the type
    mismatch diagnostic. *)
Theorem NFunctionCall_semanticAnalysis_args (ident : string) (args : list expr)
    (func : NFunctionDeclaration) (ctx : SemanticContext) (out : list diagnostic) :
  searchFuncs ctx ident = Some func ->
  length (variables func) = length args ->
  (exists b : bool,
      NFunctionCall_semanticAnalysis ident args (ctx, out)
      = Returns (b, (ctx, if b then out else out ++ [CallMismatch ident])) /\
      (b = true <->
       Forall2 (fun a p => getType ctx a = var_type p) args (variables func))) /\
  (forall (i : nat) a p,
      args !! i = Some a ->
      variables func !! i = Some p ->
      0 <= var_type p < 2 ^ 28 ->
      getType ctx a = listType (var_type p) ->
      NFunctionCall_semanticAnalysis ident args (ctx, out)
      = Returns (false, (ctx, out ++ [CallMismatch ident]))).
Proof.
  intros Hfunc Hlen.
  assert (Hrun : NFunctionCall_semanticAnalysis ident args (ctx, out)
                 = Returns (argsMatch ctx args (variables func),
                            (ctx, if argsMatch ctx args (variables func) then out
                                  else out ++ [CallMismatch ident]))).
  { run. rewrite Hfunc. rewrite bool_decide_eq_true_2 by assumption.
    destruct (argsMatch ctx args (variables func)); reflexivity. }
  split.
  - exists (argsMatch ctx args (variables func)). split; [exact Hrun |].
    apply argsMatch_Forall2. assumption.
  - intros i a p Ha Hp Hrange Htype.
    destruct (argsMatch ctx args (variables func)) eqn:Hm; [| exact Hrun].
    apply argsMatch_Forall2 in Hm; [| assumption].
    pose proof (Forall2_lookup_lr _ _ _ _ _ _ Hm Ha Hp) as Heq.
    exfalso. apply (listType_neq (var_type p) Hrange). congruence.
Qed.

(** *** Symbol tables *)

Lemma scopeAt_last ctx : indexed ctx -> scopeAt ctx = last (vars ctx).
Proof.
  unfold indexed, scopeAt. intros Hidx. rewrite last_lookup.
  destruct (vars ctx) as [| scope scopes] eqn:Hvars.
  - simpl in Hidx. rewrite Hidx. reflexivity.
  - rewrite Hidx. simpl length.
    replace (0 <=? Z.of_nat (S (length scopes)) - 1) with true
      by (symmetry; apply Z.leb_le; lia).
    f_equal. lia.
Qed.

Lemma existsb_declaredIn ident scope :
  existsb (fun v => bool_decide (ident = var_ident v)) scope = true <->
  declaredIn ident scope.
Proof.
  unfold declaredIn. rewrite existsb_exists. split.
  - intros (v & Hin & Heq). apply bool_decide_eq_true in Heq.
    exists v. rewrite list_elem_of_In. auto.
  - intros (v & Hin & Heq). exists v. rewrite <- list_elem_of_In.
    split; [assumption |]. apply bool_decide_eq_true. auto.
Qed.

Lemma find_undeclared ident scope :
  ~ declaredIn ident scope ->
  find (fun v => bool_decide (ident = var_ident v)) scope = None.
Proof.
  intros Hno. destruct (find _ scope) as [v |] eqn:Hfind; [| reflexivity].
  apply find_some in Hfind as [Hin Heq]. apply bool_decide_eq_true in Heq.
  exfalso. apply Hno. exists v. rewrite list_elem_of_In. auto.
Qed.

Lemma find_app_undeclared ident scope var :
  ~ declaredIn ident scope ->
  var_ident var = ident ->
  find (fun v => bool_decide (ident = var_ident v)) (scope ++ [var]) = Some var.
Proof.
  intros Hno Hid. induction scope as [| v scope IH]; simpl.
  - rewrite bool_decide_eq_true_2; auto.
  - case_bool_decide as Heq.
    + exfalso. apply Hno. exists v. split; [left | auto].
    + apply IH. intros (w & Hin & Hw). apply Hno. exists w. split; [right |]; auto.
Qed.

(** [registerVar] looks at the innermost scope only. *)
Lemma registerVar_top var ctx out scopes scope :
  indexed ctx ->
  vars ctx = scopes ++ [scope] ->
  registerVar var (ctx, out) =
  if existsb (fun v => bool_decide (var_ident var = var_ident v)) scope
  then Returns (false, (ctx, out))
  else Returns (true, ({| currScope := currScope ctx;
                          vars := scopes ++ [scope ++ [var]];
                          currType := currType ctx;
                          funcs := funcs ctx |}, out)).
Proof.
  intros Hidx Hvars. unfold registerVar. run.
  rewrite (scopeAt_last ctx Hidx), Hvars, last_snoc.
  destruct (existsb _ scope); [reflexivity |].
  do 3 f_equal. f_equal.
  unfold indexed in Hidx. rewrite Hidx, Hvars, length_app. simpl length.
  replace (Z.to_nat (Z.of_nat (length scopes + 1) - 1)) with (length scopes + 0)%nat by lia.
  rewrite insert_app_r. reflexivity.
Qed.

Lemma searchVars_top ctx ident scopes scope :
  vars ctx = scopes ++ [scope] ->
  searchVars ctx ident =
  match find (fun v => bool_decide (ident = var_ident v)) scope with
  | Some v => Some v
  | None => searchScopes ident (rev scopes)
  end.
Proof.
  intros Hvars. unfold searchVars. rewrite Hvars, rev_app_distr. reflexivity.
Qed.

Lemma delScope_snoc ctx out scopes scope types type :
  vars ctx = scopes ++ [scope] ->
  currType ctx = types ++ [type] ->
  delScope (ctx, out) =
  Returns (tt, ({| currScope := currScope ctx - 1; vars := scopes;
                   currType := types; funcs := funcs ctx |}, out)).
Proof.
  intros Hvars Htypes. unfold delScope. run. rewrite Hvars, Htypes.
  rewrite !removelast_last.
  destruct scopes, types; reflexivity.
Qed.

(** C7.  From a context whose innermost scope does not declare the
    identifier: declaring [outer] succeeds; declaring [inner], which
    has the same identifier, in that same scope is rejected, while in a
    freshly pushed scope it succeeds; the identifier then resolves to
    [inner], and once the pushed scope is popped it resolves to [outer]
    again. *)
Theorem shadowing_round_trip (outer inner : NVariableDeclaration) (type : Z)
    (ctx : SemanticContext) (out : list diagnostic)
    (scope : list NVariableDeclaration) :
  indexed ctx ->
  last (vars ctx) = Some scope ->
  ~ declaredIn (var_ident outer) scope ->
  var_ident inner = var_ident outer ->
  exists ctx1 ctx2 ctx3 ctx4,
    registerVar outer (ctx, out) = Returns (true, (ctx1, out)) /\
    registerVar inner (ctx1, out) = Returns (false, (ctx1, out)) /\
    newScope type (ctx1, out) = Returns (tt, (ctx2, out)) /\
    registerVar inner (ctx2, out) = Returns (true, (ctx3, out)) /\
    searchVars ctx3 (var_ident outer) = Some inner /\
    delScope (ctx3, out) = Returns (tt, (ctx4, out)) /\
    searchVars ctx4 (var_ident outer) = Some outer.
Proof.
  intros Hidx Hlast Hfresh Hid.
  apply last_Some in Hlast as [scopes Hvars].
  assert (Hnot : existsb (fun v => bool_decide (var_ident outer = var_ident v)) scope = false).
  { apply not_true_is_false. rewrite existsb_declaredIn. assumption. }
  set (ctx1 := {| currScope := currScope ctx; vars := scopes ++ [scope ++ [outer]];
                  currType := currType ctx; funcs := funcs ctx |}).
  set (ctx2 := {| currScope := currScope ctx1 + 1; vars := vars ctx1 ++ [[]];
                  currType := currType ctx1 ++ [type]; funcs := funcs ctx1 |}).
  set (ctx3 := {| currScope := currScope ctx2;
                  vars := (scopes ++ [scope ++ [outer]]) ++ [[] ++ [inner]];
                  currType := currType ctx2; funcs := funcs ctx2 |}).
  assert (Hidx1 : indexed ctx1).
  { unfold indexed in *. simpl. rewrite Hidx, Hvars, !length_app. reflexivity. }
  assert (Hidx2 : indexed ctx2).
  { unfold indexed in *. simpl. rewrite Hidx, Hvars, !length_app. simpl. lia. }
  exists ctx1, ctx2, ctx3, ctx1. repeat split.
  - rewrite (registerVar_top outer ctx out scopes scope Hidx Hvars), Hnot. reflexivity.
  - rewrite (registerVar_top inner ctx1 out scopes (scope ++ [outer]) Hidx1 eq_refl).
    replace (existsb _ (scope ++ [outer])) with true; [reflexivity |].
    symmetry. rewrite existsb_app. simpl.
    rewrite (bool_decide_eq_true_2 _ Hid). apply orb_true_iff. right. reflexivity.
  - rewrite (registerVar_top inner ctx2 out (vars ctx1) [] Hidx2 eq_refl). reflexivity.
  - rewrite (searchVars_top ctx3 _ (scopes ++ [scope ++ [outer]]) [inner] eq_refl).
    simpl. rewrite (bool_decide_eq_true_2 _ (eq_sym Hid)). reflexivity.
  - rewrite (delScope_snoc ctx3 out (vars ctx1) [inner] (currType ctx1) type eq_refl eq_refl).
    do 3 f_equal. unfold ctx1. simpl. f_equal. lia.
  - rewrite (searchVars_top ctx1 _ scopes (scope ++ [outer]) eq_refl).
    rewrite (find_app_undeclared _ scope outer Hfresh eq_refl). reflexivity.
Qed.

Lemma expr_semanticAnalysis_frame e ctx out :
  exists b printed,
    expr_semanticAnalysis e (ctx, out) = Returns (b, (ctx, out ++ printed)).
Proof.
  destruct e; simpl; run.
  1-3: exists Node_semanticAnalysis, []; rewrite app_nil_r; reflexivity.
  - destruct (searchFuncs ctx ident); [| eauto].
    case_bool_decide; [| eauto].
    destruct (argsMatch _ _ _); [| eauto].
    exists true, []; rewrite app_nil_r; reflexivity.
  - case_bool_decide; [| eauto].
    exists true, []; rewrite app_nil_r; reflexivity.
Qed.

(** C9.  A declaration that is not a duplicate in the innermost scope
    is registered before its initializer is looked at: when the check
    returns false, this is because the initializer has another type
    than the declared one or fails its own analysis, and the variable
    is left in the innermost scope, where later lookups of its
    identifier find it. *)
Theorem NVariableDeclaration_not_atomic (fuel : nat) (d : NVariableDeclaration)
    (ctx ctx' : SemanticContext) (out out' : list diagnostic)
    (scopes : list (list NVariableDeclaration)) (scope : list NVariableDeclaration) :
  indexed ctx ->
  vars ctx = scopes ++ [scope] ->
  ~ declaredIn (var_ident d) scope ->
  semanticAnalysis fuel (NVariableDeclarationStmt d) (ctx, out)
  = Returns (false, (ctx', out')) ->
  vars ctx' = scopes ++ [scope ++ [d]] /\
  searchVars ctx' (var_ident d) = Some d /\
  (exists printed, out' = out ++ printed ++ [VarMismatch (var_ident d)]) /\
  exists init,
    initializationExpression d = Some init /\
    (getType ctx' init <> condType (bool_decide (var_size d = 1)) (var_type d) \/
     exists out'', expr_semanticAnalysis init (ctx', out) = Returns (false, (ctx', out''))).
Proof.
  intros Hidx Hvars Hfresh.
  assert (Hnot : existsb (fun v => bool_decide (var_ident d = var_ident v)) scope = false).
  { apply not_true_is_false. rewrite existsb_declaredIn. assumption. }
  cbn [semanticAnalysis]. unfold NVariableDeclaration_semanticAnalysis.
  unfold bind at 1.
  rewrite (registerVar_top d ctx out scopes scope Hidx Hvars), Hnot.
  set (ctx1 := {| currScope := currScope ctx; vars := scopes ++ [scope ++ [d]];
                  currType := currType ctx; funcs := funcs ctx |}).
  assert (Hsearch : searchVars ctx1 (var_ident d) = Some d).
  { rewrite (searchVars_top ctx1 _ scopes (scope ++ [d]) eq_refl).
    rewrite (find_app_undeclared _ scope d Hfresh eq_refl). reflexivity. }
  destruct (initializationExpression d) as [init |] eqn:Hinit; [| discriminate].
  run. case_bool_decide as Htype.
  - destruct (expr_semanticAnalysis_frame init ctx1 out) as (b & printed & Hrun).
    rewrite Hrun. destruct b; [discriminate |].
    cbn [fst snd]. intros Heq. injection Heq as <- <-.
    repeat split; auto.
    + exists printed. rewrite app_assoc. reflexivity.
    + exists init. split; [reflexivity |]. right. eauto.
  - intros Heq. injection Heq as <- <-.
    repeat split; auto.
    + exists []. reflexivity.
    + exists init. split; [reflexivity |]. left. assumption.
Qed.

(** *** The two stacks *)

Lemma shifted_refl ctx : shifted 0 ctx ctx.
Proof. unfold shifted. repeat split; lia. Qed.

Lemma shifted_trans j k ctx1 ctx2 ctx3 :
  shifted j ctx1 ctx2 -> shifted k ctx2 ctx3 -> shifted (j + k) ctx1 ctx3.
Proof.
  unfold shifted. intros (Hf1 & Hs1 & Hv1 & Ht1) (Hf2 & Hs2 & Hv2 & Ht2).
  repeat split; [congruence | lia | lia | lia].
Qed.

Lemma shifted_balanced k ctx ctx' : shifted k ctx ctx' -> balanced ctx -> balanced ctx'.
Proof. unfold shifted, balanced. intros (_ & _ & Hv & Ht) Hb. lia. Qed.

Lemma shifted_indexed k ctx ctx' : shifted k ctx ctx' -> indexed ctx -> indexed ctx'.
Proof. unfold shifted, indexed. intros (_ & Hs & Hv & _) Hi. lia. Qed.

Lemma newScope_shifted type ctx out :
  exists ctx', newScope type (ctx, out) = Returns (tt, (ctx', out)) /\
               shifted 1 ctx ctx' /\ last (currType ctx') = Some type.
Proof.
  unfold newScope. run. eexists. split; [reflexivity |].
  unfold shifted. simpl. rewrite !length_app, last_snoc. simpl.
  repeat split; lia.
Qed.

Lemma delScope_shifted ctx out u ctx' out' :
  delScope (ctx, out) = Returns (u, (ctx', out')) ->
  shifted (-1) ctx ctx' /\ out' = out.
Proof.
  unfold delScope. run.
  destruct (vars ctx) as [| s0 l0] eqn:Hv; [discriminate |].
  destruct (currType ctx) as [| t0 ts0] eqn:Ht; [discriminate |].
  intros Heq. injection Heq as _ <- <-.
  unfold shifted. cbn [funcs currScope vars currType].
  rewrite Hv, Ht.
  assert (Hlen : forall {A} (x : A) l, S (length (removelast (x :: l))) = length (x :: l)).
  { intros A x l. rewrite (app_removelast_last x (l := x :: l)) at 2 by discriminate.
    rewrite length_app. simpl. lia. }
  pose proof (Hlen _ s0 l0) as H1. pose proof (Hlen _ t0 ts0) as H2.
  change (match l0 with [] => [] | _ :: _ => s0 :: removelast l0 end)
    with (removelast (s0 :: l0)).
  change (match ts0 with [] => [] | _ :: _ => t0 :: removelast ts0 end)
    with (removelast (t0 :: ts0)).
  repeat split; lia.
Qed.

Lemma registerVar_shifted var ctx out b ctx' out' :
  registerVar var (ctx, out) = Returns (b, (ctx', out')) ->
  shifted 0 ctx ctx' /\ out' = out.
Proof.
  unfold registerVar. run. destruct (scopeAt ctx) as [scope |]; [| discriminate].
  destruct (existsb _ scope).
  - intros Heq. injection Heq as _ <- <-. split; [apply shifted_refl | reflexivity].
  - intros Heq. injection Heq as _ <- <-. split; [| reflexivity].
    unfold shifted. cbn [funcs currScope vars currType].
    rewrite length_insert. repeat split; lia.
Qed.

Lemma registerAll_shifted variables0 ctx out u ctx' out' :
  registerAll variables0 (ctx, out) = Returns (u, (ctx', out')) ->
  shifted 0 ctx ctx' /\ out' = out.
Proof.
  revert ctx. induction variables0 as [| var rest IH]; intros ctx; simpl.
  - run. intros Heq. injection Heq as _ <- <-. split; [apply shifted_refl | reflexivity].
  - intros Hrun. apply bind_Returns in Hrun as (b & [ctx1 out1] & Hreg & Hrest).
    apply registerVar_shifted in Hreg as [Hs1 ->].
    apply IH in Hrest as [Hs2 ->].
    split; [| reflexivity]. apply (shifted_trans 0 0 _ _ _ Hs1 Hs2).
Qed.

Lemma allStatements_leaves analyse statements :
  Forall (fun s => leaves (analyse s)) statements ->
  leaves (allStatements analyse statements).
Proof.
  induction 1 as [| s rest Hs _ IH]; intros ctx out b ctx' out'; simpl.
  - run. intros Heq. injection Heq as <- <- <-.
    exists 0. split; [lia |]. split; [apply shifted_refl | reflexivity].
  - intros Hrun. apply bind_Returns in Hrun as (ok & [ctx1 out1] & Hfirst & Hrest).
    apply Hs in Hfirst as (j & Hj & Hshift1 & Hok).
    destruct ok.
    + apply IH in Hrest as (k & Hk & Hshift2 & Hb).
      exists (j + k). split; [lia |].
      split; [apply (shifted_trans _ _ _ _ _ Hshift1 Hshift2) |].
      intros Htrue. rewrite Hok, Hb; auto.
    + revert Hrest. run. intros Heq. injection Heq as <- <- <-.
      exists j. split; [lia |]. split; [assumption | discriminate].
Qed.

(** A block leaves its own scope behind when one of its statements
    fails. *)
Lemma NBlock_semanticAnalysis_shifted analyse statements ctx out b ctx' out' :
  Forall (fun s => leaves (analyse s)) statements ->
  NBlock_semanticAnalysis analyse statements (ctx, out) = Returns (b, (ctx', out')) ->
  exists k, shifted k ctx ctx' /\ (b = true -> k = 0) /\ (b = false -> 1 <= k).
Proof.
  intros Hall Hrun. unfold NBlock_semanticAnalysis in Hrun.
  apply bind_Returns in Hrun as (type & [ctx0 out0] & Hback & Hrun).
  assert (ctx0 = ctx) as ->.
  { revert Hback. run. destruct (last (currType ctx)); [| discriminate].
    intros Heq. injection Heq as _ <- _. reflexivity. }
  apply bind_Returns in Hrun as (u & [ctx1 out1] & Hnew & Hrun).
  destruct (newScope_shifted type ctx out0) as (ctx1' & Hnew' & Hshift1 & _).
  rewrite Hnew' in Hnew. injection Hnew as _ <- <-.
  apply bind_Returns in Hrun as (ok & [ctx2 out2] & Hloop & Hrun).
  apply (allStatements_leaves analyse statements Hall) in Hloop
    as (j & Hj & Hshift2 & Hok).
  destruct ok.
  - apply bind_Returns in Hrun as (u' & [ctx3 out3] & Hdel & Hret).
    apply delScope_shifted in Hdel as [Hshift3 ->].
    revert Hret. run. intros Heq. injection Heq as <- <- <-.
    rewrite (Hok eq_refl) in Hshift2.
    exists 0. split; [| split; [reflexivity | discriminate]].
    apply (shifted_trans 1 (-1) _ _ _ (shifted_trans 1 0 _ _ _ Hshift1 Hshift2) Hshift3).
  - revert Hrun. run. intros Heq. injection Heq as <- <- <-.
    exists (1 + j). split; [apply (shifted_trans _ _ _ _ _ Hshift1 Hshift2) |].
    split; [discriminate | lia].
Qed.

Lemma semanticAnalysis_leaves fuel s : leaves (semanticAnalysis fuel s).
Proof.
  induction s as [statements IH | ident e | retExpr | e | d | f IH]
    using stmt_nested_ind; intros ctx out b ctx' out' Hrun; cbn [semanticAnalysis] in Hrun.
  - apply (NBlock_semanticAnalysis_shifted _ _ _ _ _ _ _ IH) in Hrun
      as (k & Hshift & Htrue & Hfalse).
    exists k. split; [destruct b; [rewrite Htrue | specialize (Hfalse eq_refl)]; auto; lia |].
    auto.
  - revert Hrun. run. destruct (searchVars ctx ident); [| discriminate].
    case_bool_decide; intros Heq; injection Heq as <- <- <-;
      exists 0; (split; [lia |]); (split; [apply shifted_refl | reflexivity]).
  - revert Hrun. run. destruct (last (currType ctx)); [| discriminate].
    case_bool_decide; intros Heq; injection Heq as <- <- <-;
      exists 0; (split; [lia |]); (split; [apply shifted_refl | reflexivity]).
  - destruct (expr_semanticAnalysis_frame e ctx out) as (b0 & printed & Hframe).
    rewrite Hframe in Hrun. injection Hrun as <- <- <-.
    exists 0. split; [lia |]. split; [apply shifted_refl | reflexivity].
  - unfold NVariableDeclaration_semanticAnalysis in Hrun.
    apply bind_Returns in Hrun as (registered & [ctx1 out1] & Hreg & Hrun).
    apply registerVar_shifted in Hreg as [Hshift ->].
    exists 0. split; [lia |]. split; [| reflexivity].
    assert (ctx' = ctx1) as ->; [| assumption].
    destruct registered.
    + destruct (initializationExpression d) as [init |].
      * revert Hrun. run. case_bool_decide.
        -- destruct (expr_semanticAnalysis_frame init ctx1 out) as (b0 & printed & Hframe).
           rewrite Hframe. destruct b0; intros Heq; injection Heq as _ <- _; reflexivity.
        -- intros Heq; injection Heq as _ <- _; reflexivity.
      * revert Hrun. run. intros Heq; injection Heq as _ <- _; reflexivity.
    + revert Hrun. run. intros Heq; injection Heq as _ <- _; reflexivity.
  - apply bind_Returns in Hrun as (u & [ctx1 out1] & Hnew & Hrun).
    apply bind_Returns in Hnew as (u0 & [ctx1' out1'] & Hnew & Hreg).
    destruct (newScope_shifted (condType (negb (listReturn f)) (func_type f)) ctx out)
      as (ctx1'' & Hnew' & Hshift1 & _).
    rewrite Hnew' in Hnew. injection Hnew as _ <- <-.
    apply registerAll_shifted in Hreg as [Hshift2 ->].
    rename ctx1 into ctx2. rename ctx1'' into ctx1'. clear u0.
    apply bind_Returns in Hrun as (blockSA & [ctx3 out3] & Hbody & Hrun).
    apply (NBlock_semanticAnalysis_shifted _ _ _ _ _ _ _ IH) in Hbody
      as (k & Hshift3 & Htrue & Hfalse).
    apply bind_Returns in Hrun as (ctx3' & [ctx3'' out3'] & Hget & Hrun).
    revert Hget. run. intros Heq. injection Heq as <- <- <-.
    apply bind_Returns in Hrun as (blockRecur & [ctx4 out4] & Hrec & Hrun).
    apply lift_Returns in Hrec as [Hrec Hst]. cbn [fst snd] in Hrec, Hst.
    injection Hst as -> ->.
    apply bind_Returns in Hrun as (u2 & [ctx5 out5] & Hprint & Hrun).
    assert (ctx5 = ctx3) as ->.
    { revert Hprint. destruct blockRecur; run; intros Heq; injection Heq as _ <- _; reflexivity. }
    apply bind_Returns in Hrun as (u3 & [ctx6 out6] & Hdel & Hrun).
    apply delScope_shifted in Hdel as [Hshift4 ->].
    revert Hrun. run. intros Heq. injection Heq as <- <- <-.
    pose proof (shifted_trans _ _ _ _ _
                  (shifted_trans _ _ _ _ _
                     (shifted_trans _ _ _ _ _ Hshift1 Hshift2) Hshift3) Hshift4) as Hshift.
    assert (Hk : 0 <= k) by (destruct blockSA; [rewrite Htrue | specialize (Hfalse eq_refl)]; auto; lia).
    exists (1 + 0 + k + -1). split; [lia |]. split; [assumption |].
    intros Hb. apply andb_true_iff in Hb as [Hb _]. rewrite (Htrue Hb). lia.
Qed.

Lemma semanticAnalysis_balanced fuel s ctx out b ctx' out' :
  semanticAnalysis fuel s (ctx, out) = Returns (b, (ctx', out')) ->
  (balanced ctx -> balanced ctx') /\ (indexed ctx -> indexed ctx') /\
  funcs ctx' = funcs ctx.
Proof.
  intros Hrun. apply semanticAnalysis_leaves in Hrun as (k & _ & Hshift & _).
  split; [apply (shifted_balanced k); assumption |].
  split; [apply (shifted_indexed k); assumption | apply Hshift].
Qed.

(** C3.  When the check of a block returns false, the two stacks are
    still level, but the scope that the block pushed is still on them:
    the context holds at least one scope more than before the call. *)
Theorem NBlock_failure_keeps_scope (fuel : nat) (statements : list stmt)
    (ctx ctx' : SemanticContext) (out out' : list diagnostic) :
  semanticAnalysis fuel (NBlock statements) (ctx, out) = Returns (false, (ctx', out')) ->
  (balanced ctx -> balanced ctx') /\
  (length (vars ctx) < length (vars ctx'))%nat /\
  (length (currType ctx) < length (currType ctx'))%nat.
Proof.
  intros Hrun.
  split; [apply (semanticAnalysis_balanced _ _ _ _ _ _ _ Hrun) |].
  cbn [semanticAnalysis] in Hrun.
  apply NBlock_semanticAnalysis_shifted in Hrun as (k & Hshift & _ & Hk).
  - specialize (Hk eq_refl). destruct Hshift as (_ & _ & Hv & Ht). lia.
  - apply Forall_forall. intros s _. apply semanticAnalysis_leaves.
Qed.

(** *** The recursion check *)

Lemma callees_block g statements :
  g ∈ callees (NBlock statements) <-> exists s, s ∈ statements /\ g ∈ callees s.
Proof.
  induction statements as [| s rest IH].
  - simpl. split; [intros H; inversion H |]. intros (s & Hs & _). inversion Hs.
  - change (callees (NBlock (s :: rest))) with (callees s ++ callees (NBlock rest)).
    rewrite elem_of_app, IH. split.
    + intros [Hg | (s' & Hs' & Hg)].
      * exists s. split; [left | assumption].
      * exists s'. split; [right |]; assumption.
    + intros (s' & Hs' & Hg). apply elem_of_cons in Hs' as [-> | Hs'];
        [left; assumption | right; eauto].
Qed.

Lemma anyRecursion_false check statements :
  anyRecursion check statements = Returns false ->
  Forall (fun s => check s = Returns false) statements.
Proof.
  induction statements as [| s rest IH]; simpl; [constructor |].
  destruct (check s) as [[|] | |] eqn:Hs; try discriminate.
  intros Hrest. constructor; auto.
Qed.

Lemma anyRecursion_returns check statements :
  Forall (fun s => exists b, check s = Returns b) statements ->
  exists b, anyRecursion check statements = Returns b.
Proof.
  induction 1 as [| s rest [b Hs] _ IH]; simpl; [eauto |].
  rewrite Hs. destruct b; eauto.
Qed.


Lemma anyRecursion_ext check check' statements :
  Forall (fun s => check s = check' s) statements ->
  anyRecursion check statements = anyRecursion check' statements.
Proof.
  induction 1 as [| s rest Hs _ IH]; simpl; [reflexivity |].
  rewrite Hs, IH. reflexivity.
Qed.

(** The traversal reads nothing of the context but the registry. *)
Lemma checkRecursion_node_ext ctx ctx' func callee callee' s :
  funcs ctx = funcs ctx' ->
  (forall g, callee g = callee' g) ->
  checkRecursion_node ctx func callee s = checkRecursion_node ctx' func callee' s.
Proof.
  intros Hfuncs Hcallee.
  induction s as [statements IH | ident e | retExpr | e | d | f IH]
    using stmt_nested_ind; try reflexivity.
  - simpl. apply anyRecursion_ext. assumption.
  - destruct e; try reflexivity. simpl.
    replace (searchFuncs ctx ident) with (searchFuncs ctx' ident)
      by (unfold searchFuncs; rewrite Hfuncs; reflexivity).
    destruct (searchFuncs ctx' ident); [rewrite Hcallee |]; reflexivity.
Qed.

Lemma checkRecursion_funcs fuel ctx ctx' func s :
  funcs ctx = funcs ctx' ->
  checkRecursion fuel ctx func s = checkRecursion fuel ctx' func s.
Proof.
  intros Hfuncs. revert s. induction fuel as [| fuel IH]; intros s; simpl.
  - apply checkRecursion_node_ext; auto.
  - apply checkRecursion_node_ext; auto.
Qed.

(** When a node answers false, every call it contains names a
    registered function other than the target, and the traversal of
    that function's body answered false. *)
Lemma checkRecursion_node_false ctx func callee s :
  checkRecursion_node ctx func callee s = Returns false ->
  forall g, g ∈ callees s ->
    g <> func_ident func /\
    exists fd, searchFuncs ctx g = Some fd /\ callee fd = Returns false.
Proof.
  induction s as [statements IH | ident e | retExpr | e | d | f IH]
    using stmt_nested_ind; intros Hrun g Hg; try (inversion Hg; fail).
  - simpl in Hrun. apply anyRecursion_false in Hrun.
    apply callees_block in Hg as (s & Hs & Hg).
    rewrite Forall_forall in IH, Hrun. apply (IH s Hs (Hrun s Hs) g Hg).
  - destruct e; try (inversion Hg; fail).
    simpl in Hg. apply list_elem_of_singleton in Hg as ->.
    simpl in Hrun. case_bool_decide as Hid; [discriminate |].
    split; [congruence |].
    destruct (searchFuncs ctx ident) as [fd |]; [eauto | discriminate].
Qed.

Lemma checkRecursion_node_returns ctx func callee s :
  (forall g, g ∈ callees s ->
     g = func_ident func \/
     exists fd b, searchFuncs ctx g = Some fd /\ callee fd = Returns b) ->
  exists b, checkRecursion_node ctx func callee s = Returns b.
Proof.
  induction s as [statements IH | ident e | retExpr | e | d | f IH]
    using stmt_nested_ind; intros Hcallees; try (simpl; eauto; fail).
  - simpl. apply anyRecursion_returns.
    rewrite Forall_forall in IH |- *. intros s Hs. apply (IH s Hs).
    intros g Hg. apply Hcallees, callees_block. eauto.
  - destruct e; try (simpl; eauto; fail). simpl.
    case_bool_decide as Hid; [eauto |].
    destruct (Hcallees ident) as [-> | (fd & b & Hfd & Hb)];
      [simpl; left | contradiction |].
    rewrite Hfd. eauto.
Qed.


Lemma checkRecursion_false_callees fuel ctx func s :
  checkRecursion fuel ctx func s = Returns false ->
  forall g, g ∈ callees s ->
    g <> func_ident func /\
    exists fd fuel', searchFuncs ctx g = Some fd /\
      checkRecursion fuel' ctx func (NBlock (body fd)) = Returns false.
Proof.
  intros Hrun g Hg. destruct fuel as [| fuel]; simpl in Hrun;
    destruct (checkRecursion_node_false _ _ _ _ Hrun g Hg) as (Hne & fd & Hfd & Hbody).
  - discriminate.
  - split; [assumption |]. exists fd, fuel. auto.
Qed.

(** Soundness of the check: when it answers false, no chain of calls
    leads from the statement to the target. *)
Lemma checkRecursion_false_sound fuel ctx func s :
  checkRecursion fuel ctx func s = Returns false ->
  ~ visits ctx (func_ident func) s (func_ident func).
Proof.
  intros Hrun (g0 & Hg0 & Hpath).
  set (answered g :=
         g <> func_ident func /\
         exists fd fuel', searchFuncs ctx g = Some fd /\
           checkRecursion fuel' ctx func (NBlock (body fd)) = Returns false).
  assert (Hstep : forall g h,
             rtc (follows ctx (func_ident func)) g h -> answered g -> answered h).
  { induction 1 as [g | g h k [_ (fd & Hfd & Hh)] _ IH]; [auto |].
    intros (_ & fd' & fuel' & Hfd' & Hbody). apply IH.
    assert (fd' = fd) as -> by congruence.
    apply (checkRecursion_false_callees _ _ _ _ Hbody h Hh). }
  destruct (Hstep _ _ Hpath (checkRecursion_false_callees _ _ _ _ Hrun g0 Hg0))
    as [Hne _].
  apply Hne. reflexivity.
Qed.


(** More call depth never changes an answer. *)
Lemma checkRecursion_node_mono ctx func callee callee' s b :
  (forall fd b', callee fd = Returns b' -> callee' fd = Returns b') ->
  checkRecursion_node ctx func callee s = Returns b ->
  checkRecursion_node ctx func callee' s = Returns b.
Proof.
  intros Hcallee. revert b.
  induction s as [statements IH | ident e | retExpr | e | d | f IH]
    using stmt_nested_ind; intros b; try (simpl; auto; fail).
  - simpl. induction IH as [| s rest Hs _ IHrest]; simpl; [auto |].
    destruct (checkRecursion_node ctx func callee s) as [[|] | |] eqn:Hrun;
      try discriminate.
    + rewrite (Hs true eq_refl). auto.
    + rewrite (Hs false eq_refl). auto.
  - destruct e; try (simpl; auto; fail). simpl.
    case_bool_decide; [auto |]. destruct (searchFuncs ctx ident); auto.
Qed.

Lemma checkRecursion_S fuel ctx func :
  forall s b,
    checkRecursion fuel ctx func s = Returns b ->
    checkRecursion (S fuel) ctx func s = Returns b.
Proof.
  induction fuel as [| fuel IH]; intros s b.
  - apply checkRecursion_node_mono. discriminate.
  - apply checkRecursion_node_mono. intros fd b'. apply IH.
Qed.

Lemma checkRecursion_mono fuel fuel' ctx func s b :
  (fuel <= fuel')%nat ->
  checkRecursion fuel ctx func s = Returns b ->
  checkRecursion fuel' ctx func s = Returns b.
Proof.
  induction 1 as [| fuel' _ IH]; [auto |].
  intros Hrun. apply checkRecursion_S, IH, Hrun.
Qed.

Lemma searchFuncs_registered ctx g fd :
  searchFuncs ctx g = Some fd -> g ∈ map func_ident (funcs ctx).
Proof.
  unfold searchFuncs. intros Hfind. apply find_some in Hfind as [Hin Heq].
  apply bool_decide_eq_true in Heq. subst g.
  apply list_elem_of_In, in_map. assumption.
Qed.

(** On an acyclic call graph the depth of the traversal is bounded by
    the number of functions it may still enter. *)
Lemma checkRecursion_bounded ctx func :
  acyclic ctx ->
  forall fuel (avail : list string) s,
    (length avail <= fuel)%nat ->
    (forall g0 g, g0 ∈ callees s -> rtc (calls ctx) g0 g ->
                  g ∈ avail /\ is_Some (searchFuncs ctx g)) ->
    exists b, checkRecursion fuel ctx func s = Returns b.
Proof.
  intros Hacyclic. induction fuel as [| fuel IH]; intros avail s Hlen Hreach; simpl;
    apply checkRecursion_node_returns; intros g Hg; right;
    destruct (Hreach g g Hg (rtc_refl _ _)) as [Havail [fd Hfd]].
  - destruct avail; [inversion Havail | simpl in Hlen; lia].
  - destruct (IH (filter (fun h => h <> g) avail) (NBlock (body fd))) as [b Hb].
    + pose proof (length_filter_lt (fun h => h <> g) avail g Havail) as Hlt.
      assert (Hnn : ~ g <> g) by auto. specialize (Hlt Hnn). lia.
    + intros h0 h Hh0 Hpath.
      assert (Hstep : calls ctx g h0) by (exists fd; auto).
      destruct (Hreach g h Hg (rtc_l _ _ _ _ Hstep Hpath)) as [Hin Hsome].
      split; [| assumption].
      apply list_elem_of_filter. split; [| assumption].
      intros ->. apply (Hacyclic g).
      apply (tc_rtc_r g h0 g); [apply tc_once |]; assumption.
    + eauto.
Qed.

Lemma checkRecursion_singleton fuel ctx func s :
  checkRecursion fuel ctx func (NBlock [s]) = checkRecursion fuel ctx func s.
Proof.
  destruct fuel; simpl;
    match goal with
    | |- match ?c with _ => _ end = _ => destruct c as [[|] | |]; reflexivity
    end.
Qed.

Lemma cycle_diverges fuel :
  checkRecursion fuel cycleCtx cycleA (callStmt "B") = Diverges /\
  checkRecursion fuel cycleCtx cycleA (callStmt "C") = Diverges.
Proof.
  induction fuel as [| fuel [IHB IHC]].
  - split; reflexivity.
  - split.
    + change (checkRecursion (S fuel) cycleCtx cycleA (callStmt "B"))
        with (checkRecursion fuel cycleCtx cycleA (NBlock [callStmt "C"])).
      rewrite checkRecursion_singleton. assumption.
    + change (checkRecursion (S fuel) cycleCtx cycleA (callStmt "C"))
        with (checkRecursion fuel cycleCtx cycleA (NBlock [callStmt "B"])).
      rewrite checkRecursion_singleton. assumption.
Qed.

Lemma cycle_calls f g :
  calls cycleCtx f g ->
  (f = "A" /\ g = "B") \/ (f = "B" /\ g = "C") \/ (f = "C" /\ g = "B").
Proof.
  intros (fd & Hfd & Hg). unfold searchFuncs in Hfd. simpl in Hfd.
  repeat case_bool_decide; try discriminate; injection Hfd as <-;
    simpl in Hg; apply list_elem_of_singleton in Hg; auto.
Qed.

Lemma cycle_away_from_target g :
  rtc (calls cycleCtx) "B" g -> g = "B" \/ g = "C".
Proof.
  assert (Hclosed : forall f h, rtc (calls cycleCtx) f h ->
                                f = "B" \/ f = "C" -> h = "B" \/ h = "C").
  { induction 1 as [f | f h k Hstep _ IH]; [auto |].
    intros Hf. apply IH.
    destruct (cycle_calls f h Hstep) as [[-> ->] | [[-> ->] | [-> ->]]]; auto. }
  intros Hpath. apply (Hclosed _ _ Hpath). auto.
Qed.

(** C4.  The traversal has no visited set.  On the program in which
    [A] calls [B], [B] calls [C] and [C] calls [B], the cycle between
    [B] and [C] never leads to the target [A], and the check of the call
    of [B] for the target [A] exhausts every call depth.  Conversely,
    when the call graph is acyclic and every callee is registered, the
    check returns an answer, the same one for every depth allowance from
    the number of registered functions on. *)
Theorem checkRecursion_termination :
  (exists ctx func ident args,
      searchFuncs ctx (func_ident func) = Some func /\
      NExpressionStmt (NFunctionCall ident args) ∈ body func /\
      tc (calls ctx) ident ident /\
      ~ rtc (calls ctx) ident (func_ident func) /\
      forall fuel,
        checkRecursion fuel ctx func (NExpressionStmt (NFunctionCall ident args))
        = Diverges) /\
  (forall ctx func s,
      acyclic ctx ->
      resolved ctx ->
      (forall g, g ∈ callees s -> is_Some (searchFuncs ctx g)) ->
      exists b, forall fuel,
          (length (funcs ctx) <= fuel)%nat ->
          checkRecursion fuel ctx func s = Returns b).
Proof.
  split.
  - exists cycleCtx, cycleA, "B", []. repeat split.
    + left.
    + apply (tc_l _ "B" "C" "B"); [| apply tc_once].
      * exists cycleB. split; [reflexivity | left].
      * exists cycleC. split; [reflexivity | left].
    + intros Hpath. apply cycle_away_from_target in Hpath as [H | H]; discriminate.
    + intros fuel. apply cycle_diverges.
  - intros ctx func s Hacyclic Hresolved Hcallees.
    destruct (checkRecursion_bounded ctx func Hacyclic (length (funcs ctx))
                (map func_ident (funcs ctx)) s) as [b Hb].
    + rewrite List.length_map. reflexivity.
    + intros g0 g Hg0 Hpath.
      assert (Hsome : is_Some (searchFuncs ctx g)).
      { destruct (rtc_inv_r _ _ Hpath) as [<- | (h & _ & Hstep)].
        - apply Hcallees. assumption.
        - apply (Hresolved h g Hstep). }
      split; [| assumption].
      destruct Hsome as [fd Hfd]. apply (searchFuncs_registered ctx g fd Hfd).
    + exists b. intros fuel Hfuel.
      apply (checkRecursion_mono (length (funcs ctx))); assumption.
Qed.

(** *** Function declarations *)

Lemma bind_eq {A B} (m : M A) (k : A -> M B) st a st' :
  m st = Returns (a, st') -> bind m k st = k a st'.
Proof. unfold bind. intros ->. reflexivity. Qed.

Lemma enterFunction_shifted f ctx out u ctx1 out1 :
  enterFunction f (ctx, out) = Returns (u, (ctx1, out1)) ->
  shifted 1 ctx ctx1 /\ out1 = out.
Proof.
  unfold enterFunction. intros Hrun.
  apply bind_Returns in Hrun as (u0 & [ctx0 out0] & Hnew & Hreg).
  destruct (newScope_shifted (condType (negb (listReturn f)) (func_type f)) ctx out)
    as (ctx0' & Hnew' & Hshift1 & _).
  rewrite Hnew' in Hnew. injection Hnew as _ <- <-.
  apply registerAll_shifted in Hreg as [Hshift2 ->].
  split; [apply (shifted_trans 1 0 _ _ _ Hshift1 Hshift2) | reflexivity].
Qed.


(** How a function declaration is checked, once its scope is entered
    and its body analysed. *)
Lemma NFunctionDeclaration_run fuel f ctx out u ctx1 blockSA ctx2 out2 :
  enterFunction f (ctx, out) = Returns (u, (ctx1, out)) ->
  semanticAnalysis fuel (NBlock (body f)) (ctx1, out) = Returns (blockSA, (ctx2, out2)) ->
  semanticAnalysis fuel (NFunctionDeclarationStmt f) (ctx, out) =
  match checkRecursion fuel ctx f (NBlock (body f)) with
  | Returns blockRecur =>
      (delScope ;;; ret (blockSA && negb blockRecur))
        (ctx2, if blockRecur then out2 ++ [RecursiveCall (func_ident f)] else out2)
  | Undefined => Undefined
  | Diverges => Diverges
  end.
Proof.
  intros Henter Hbody. cbn [semanticAnalysis] in Hbody |- *.
  rewrite (bind_eq _ _ _ _ _ Henter), (bind_eq _ _ _ _ _ Hbody).
  assert (Hfuncs : funcs ctx2 = funcs ctx).
  { apply enterFunction_shifted in Henter as [(Hf1 & _) _].
    apply (semanticAnalysis_balanced fuel (NBlock (body f))) in Hbody as (_ & _ & Hf2).
    congruence. }
  unfold bind at 1. unfold getCtx at 1. cbn [fst].
  rewrite (checkRecursion_funcs fuel ctx2 ctx f _ Hfuncs).
  unfold bind at 1.
  destruct (checkRecursion fuel ctx f (NBlock (body f))) as [[|] | |]; reflexivity.
Qed.













(** ** Further properties *)

(** *** Type encoding, continued *)

Lemma flag_disjoint type : flagFree type -> Z.land LIST_FLAG type = 0.
Proof.
  intros [Hlo Hhi]. apply Z.bits_inj'. intros n Hn.
  rewrite Z.land_spec, Z.bits_0.
  destruct (Z.lt_ge_cases n 28) as [Hlt | Hge].
  - change LIST_FLAG with (15 * 2 ^ 28).
    rewrite Z.mul_pow2_bits_low by assumption. reflexivity.
  - destruct (Z.eq_dec type 0) as [-> | Hne].
    + rewrite Z.bits_0. apply andb_false_r.
    + rewrite (Z.bits_above_log2 type n); [apply andb_false_r | lia |].
      apply Z.lt_le_trans with 28; [| assumption].
      apply Z.log2_lt_pow2; lia.
Qed.

Lemma listType_flagFree type : flagFree type -> listType type = type - 2 ^ 28.
Proof.
  intros Hfree. pose proof Hfree as [Hlo Hhi].
  unfold listType, to_unsigned. rewrite (Z.mod_small type) by lia.
  rewrite <- Z.lxor_lor, <- Z.add_nocarry_lxor by (apply flag_disjoint; assumption).
  unfold to_int, LIST_FLAG.
  replace (4026531840 + type + 2 ^ 31)
    with (type + 2 ^ 31 - 2 ^ 28 + 1 * 2 ^ 32) by lia.
  rewrite Z_mod_plus_full, Z.mod_small by lia. lia.
Qed.

Lemma listType_nonzero type : listType type <> 0.
Proof.
  intros Hzero. pose proof (listType_bits type 31 ltac:(lia)) as Hbit.
  rewrite Hzero, Z.bits_0 in Hbit. discriminate.
Qed.

Lemma condType_flagFree (scalar : bool) (type : Z) :
  flagFree type -> condType scalar type = if scalar then type else type - 2 ^ 28.
Proof.
  intros Hfree. destruct scalar.
  - apply condType_scalar. destruct Hfree. unfold in_int_range. lia.
  - rewrite condType_list. apply listType_flagFree. assumption.
Qed.

(** X1.  On base type codes free of flag bits the effective type is
    faithful: two declared entities have the same effective type
    exactly when they agree on being scalar and on the base type; in
    particular a scalar and a list never have the same type. *)
Theorem condType_faithful (scalar1 scalar2 : bool) (type1 type2 : Z) :
  flagFree type1 -> flagFree type2 ->
  (condType scalar1 type1 = condType scalar2 type2 <->
   scalar1 = scalar2 /\ type1 = type2).
Proof.
  intros Hf1 Hf2. rewrite !condType_flagFree by assumption.
  destruct Hf1 as [Hlo1 Hhi1], Hf2 as [Hlo2 Hhi2].
  split.
  - destruct scalar1, scalar2; intros Heq;
      (split; [reflexivity || (exfalso; lia) | lia]).
  - intros [-> ->]. reflexivity.
Qed.

(** X2.  The value [0] of [NList::getType] means exactly that the list
    is empty or that one of its elements has another type than the
    first: a homogeneous non-empty list never gets it, whatever the
    type of its elements. *)
Theorem NList_getType_zero_iff (ctx : SemanticContext) (value : list expr) :
  getType ctx (NList value) = 0 <->
  value = [] \/
  exists first rest,
    value = first :: rest /\
    Exists (fun e => getType ctx e <> getType ctx first) rest.
Proof.
  destruct value as [| first rest].
  - split; [auto | reflexivity].
  - change (getType ctx (NList (first :: rest)))
      with (if sameTypes (getType ctx) (getType ctx first) rest
            then listType (getType ctx first) else 0).
    destruct (sameTypes (getType ctx) (getType ctx first) rest) eqn:Hsame.
    + split.
      * intros Hzero. exfalso. apply (listType_nonzero _ Hzero).
      * intros [Hnil | (first' & rest' & Heq & Hex)]; [discriminate |].
        injection Heq as <- <-. apply sameTypes_false in Hex. congruence.
    + split; [| reflexivity]. intros _. right. exists first, rest.
      split; [reflexivity |]. apply sameTypes_false. assumption.
Qed.

(** *** Registries *)

Lemma existsb_find {A} (p : A -> bool) (l : list A) :
  existsb p l = true <-> is_Some (find p l).
Proof.
  induction l as [| x l IH]; simpl.
  - split; [discriminate | intros [y Hy]; discriminate].
  - destruct (p x); [split; eauto |]. exact IH.
Qed.

Lemma existsb_false_find {A} (p : A -> bool) (l : list A) :
  existsb p l = false -> find p l = None.
Proof.
  intros Hno. destruct (find p l) as [x |] eqn:Hfind; [| reflexivity].
  assert (Hsome : existsb p l = true) by (apply existsb_find; eauto).
  congruence.
Qed.

Lemma find_snoc {A} (p : A -> bool) (l : list A) (x : A) :
  find p (l ++ [x]) =
  match find p l with
  | Some y => Some y
  | None => if p x then Some x else None
  end.
Proof.
  induction l as [| y l IH]; simpl; [reflexivity |].
  destruct (p y); [reflexivity | exact IH].
Qed.

Lemma find_elem_of {A} (p : A -> bool) (l : list A) (x : A) :
  find p l = Some x -> x ∈ l /\ p x = true.
Proof.
  intros Hfind. apply find_some in Hfind as [Hin Hp].
  split; [apply list_elem_of_In |]; assumption.
Qed.

Lemma find_None_elem_of {A} (p : A -> bool) (l : list A) :
  find p l = None <-> forall x, x ∈ l -> p x = false.
Proof.
  split.
  - intros Hfind x Hx. apply (find_none _ _ Hfind). apply list_elem_of_In. assumption.
  - intros Hall. destruct (find p l) as [x |] eqn:Hfind; [| reflexivity].
    apply find_elem_of in Hfind as [Hin Hp]. rewrite (Hall x Hin) in Hp. discriminate.
Qed.

(** X3.  [registerFunc] refuses a function exactly when one of that
    identifier is already registered, and then changes nothing;
    otherwise the function is found under its identifier afterwards.
    In both cases every function found before is still found, and the
    scopes are not touched. *)
Theorem registerFunc_round_trip (func : NFunctionDeclaration)
    (ctx : SemanticContext) (out : list diagnostic) :
  exists b ctx',
    registerFunc func (ctx, out) = Returns (b, (ctx', out)) /\
    (b = false <-> is_Some (searchFuncs ctx (func_ident func))) /\
    (b = false -> ctx' = ctx) /\
    (b = true -> searchFuncs ctx' (func_ident func) = Some func) /\
    (forall ident g, searchFuncs ctx ident = Some g -> searchFuncs ctx' ident = Some g) /\
    (forall ident, ident <> func_ident func ->
                   searchFuncs ctx' ident = searchFuncs ctx ident) /\
    vars ctx' = vars ctx /\ currType ctx' = currType ctx /\
    currScope ctx' = currScope ctx.
Proof.
  unfold registerFunc. run.
  destruct (existsb (fun f => bool_decide (func_ident func = func_ident f)) (funcs ctx))
    eqn:Hdup.
  - exists false, ctx. apply existsb_find in Hdup.
    repeat split; auto; discriminate.
  - assert (Hnone : searchFuncs ctx (func_ident func) = None).
    { apply existsb_false_find. assumption. }
    eexists true, _. split; [reflexivity |].
    unfold searchFuncs in *. cbn [funcs vars currType currScope].
    split; [split; [discriminate | rewrite Hnone; intros [g Hg]; discriminate] |].
    split; [discriminate |].
    split; [intros _; rewrite find_snoc, Hnone, bool_decide_eq_true_2; reflexivity |].
    split; [intros ident g Hg; rewrite find_snoc, Hg; reflexivity |].
    split; [| auto].
    intros ident Hne. rewrite find_snoc, (bool_decide_eq_false_2 _ Hne).
    match goal with |- match ?o with _ => _ end = _ => destruct o; reflexivity end.
Qed.

(** X4.  [registerFunc] keeps the identifiers of the registry pairwise
    distinct. *)
Theorem registerFunc_unique (func : NFunctionDeclaration)
    (ctx ctx' : SemanticContext) (out out' : list diagnostic) (b : bool) :
  registerFunc func (ctx, out) = Returns (b, (ctx', out')) ->
  uniqueFuncs ctx -> uniqueFuncs ctx'.
Proof.
  unfold registerFunc, uniqueFuncs. run.
  destruct (existsb (fun f => bool_decide (func_ident func = func_ident f)) (funcs ctx))
    eqn:Hdup; intros Heq Huniq;
    injection Heq as _ <- _; [assumption |].
  cbn [funcs]. rewrite map_app. apply NoDup_app.
  split; [assumption |]. split; [| apply NoDup_singleton].
  intros ident Hin Hnew. apply list_elem_of_singleton in Hnew as ->.
  apply list_elem_of_In, in_map_iff in Hin as (f & Hid & Hf).
  assert (Htrue : existsb (fun f => bool_decide (func_ident func = func_ident f))
                    (funcs ctx) = true).
  { apply existsb_exists. exists f. split; [assumption |].
    apply bool_decide_eq_true. congruence. }
  congruence.
Qed.

(** X5.  [searchFuncs] answers a registered function of the identifier
    asked for, and answers none only when no registered function has
    it; when identifiers are pairwise distinct, every registered
    function is the one found under its identifier. *)
Theorem searchFuncs_exact (ctx : SemanticContext) (ident : string) :
  (forall f, searchFuncs ctx ident = Some f -> f ∈ funcs ctx /\ func_ident f = ident) /\
  (searchFuncs ctx ident = None <->
   forall f, f ∈ funcs ctx -> func_ident f <> ident) /\
  (uniqueFuncs ctx ->
   forall f, f ∈ funcs ctx -> func_ident f = ident -> searchFuncs ctx ident = Some f).
Proof.
  unfold searchFuncs, uniqueFuncs. split; [| split].
  - intros f Hfind. apply find_elem_of in Hfind as [Hin Hp].
    apply bool_decide_eq_true in Hp. auto.
  - rewrite find_None_elem_of. split; intros Hall f Hf.
    + specialize (Hall f Hf). apply bool_decide_eq_false in Hall. congruence.
    + apply bool_decide_eq_false. intros Heq. apply (Hall f Hf). congruence.
  - induction (funcs ctx) as [| f0 l IH]; intros Huniq f Hf Hid; [inversion Hf |].
    simpl in Huniq. apply NoDup_cons in Huniq as [Hfresh Hrest]. simpl.
    apply elem_of_cons in Hf as [-> | Hf].
    + rewrite bool_decide_eq_true_2; auto.
    + rewrite bool_decide_eq_false_2; [apply IH; assumption |].
      intros Heq. apply Hfresh. apply list_elem_of_In, in_map_iff.
      exists f. split; [congruence | apply list_elem_of_In; assumption].
Qed.

(** X6.  [registerStruct] refuses a structure exactly when one of that
    identifier is registered and then leaves the registry as it is;
    otherwise [searchStructs] finds the structure afterwards.  Earlier
    structures stay found and identifiers stay pairwise distinct. *)
Theorem registerStruct_round_trip (s : NStructureDeclaration)
    (structs : list NStructureDeclaration) :
  (fst (registerStruct s structs) = false <->
   is_Some (searchStructs structs (struct_ident s))) /\
  (fst (registerStruct s structs) = false -> snd (registerStruct s structs) = structs) /\
  (fst (registerStruct s structs) = true ->
   searchStructs (snd (registerStruct s structs)) (struct_ident s) = Some s) /\
  (forall ident t, searchStructs structs ident = Some t ->
                   searchStructs (snd (registerStruct s structs)) ident = Some t) /\
  (NoDup (map struct_ident structs) ->
   NoDup (map struct_ident (snd (registerStruct s structs)))).
Proof.
  unfold registerStruct, searchStructs.
  destruct (existsb _ structs) eqn:Hdup; cbn [fst snd].
  - apply existsb_find in Hdup. repeat split; auto; discriminate.
  - assert (Hnone : find (fun t => bool_decide (struct_ident s = struct_ident t)) structs
                    = None).
    { apply existsb_false_find. assumption. }
    split; [split; [discriminate | rewrite Hnone; intros [t Ht]; discriminate] |].
    split; [discriminate |].
    split; [intros _; rewrite find_snoc, Hnone, bool_decide_eq_true_2; reflexivity |].
    split; [intros ident t Ht; rewrite find_snoc, Ht; reflexivity |].
    intros Huniq. rewrite map_app. apply NoDup_app.
    split; [assumption |]. split; [| apply NoDup_singleton].
    intros ident Hin Hnew. apply list_elem_of_singleton in Hnew as ->.
    apply list_elem_of_In, in_map_iff in Hin as (t & Hid & Ht).
    assert (Hp := proj1 (find_None_elem_of _ _) Hnone t
                    (proj2 (list_elem_of_In _ _) Ht)).
    apply bool_decide_eq_false in Hp. congruence.
Qed.

(** *** Scopes *)

Lemma searchScopes_Some ident scopes v :
  searchScopes ident scopes = Some v ->
  var_ident v = ident /\ exists scope, scope ∈ scopes /\ v ∈ scope.
Proof.
  induction scopes as [| scope rest IH]; simpl; [discriminate |].
  destruct (find (fun w => bool_decide (ident = var_ident w)) scope) as [w |] eqn:Hfind.
  - intros Heq. injection Heq as ->. apply find_elem_of in Hfind as [Hin Hp].
    apply bool_decide_eq_true in Hp. split; [auto |].
    exists scope. split; [left | assumption].
  - intros Hrest. destruct (IH Hrest) as (Hid & scope' & Hin & Hv).
    split; [assumption |]. exists scope'. split; [right |]; assumption.
Qed.

Lemma searchScopes_None ident scopes :
  searchScopes ident scopes = None <->
  forall scope, scope ∈ scopes -> ~ declaredIn ident scope.
Proof.
  induction scopes as [| scope rest IH]; simpl.
  - split; [intros _ scope Hin; inversion Hin | reflexivity].
  - destruct (find (fun w => bool_decide (ident = var_ident w)) scope) as [w |] eqn:Hfind.
    + split; [discriminate |]. intros Hall. exfalso.
      apply find_elem_of in Hfind as [Hin Hp]. apply bool_decide_eq_true in Hp.
      apply (Hall scope); [left |]. exists w. auto.
    + rewrite IH. split.
      * intros Hall scope' Hin. apply elem_of_cons in Hin as [-> | Hin]; [| auto].
        intros (w & Hw & Hid).
        assert (Hp := proj1 (find_None_elem_of _ _) Hfind w Hw).
        apply bool_decide_eq_false in Hp. congruence.
      * intros Hall scope' Hin. apply Hall. right. assumption.
Qed.

Lemma searchScopes_app ident scopes1 scopes2 :
  searchScopes ident (scopes1 ++ scopes2) =
  match searchScopes ident scopes1 with
  | Some v => Some v
  | None => searchScopes ident scopes2
  end.
Proof.
  induction scopes1 as [| scope rest IH]; simpl; [reflexivity |].
  destruct (find _ scope); [reflexivity | exact IH].
Qed.

Lemma elem_of_rev {A} (x : A) (l : list A) : x ∈ rev l <-> x ∈ l.
Proof. rewrite !list_elem_of_In. symmetry. apply in_rev. Qed.

(** X7.  [searchVars] answers a declaration of the identifier asked
    for that sits in one of the scopes, and answers none exactly when
    no scope declares the identifier. *)
Theorem searchVars_exact (ctx : SemanticContext) (ident : string) :
  (forall v, searchVars ctx ident = Some v ->
             var_ident v = ident /\ exists scope, scope ∈ vars ctx /\ v ∈ scope) /\
  (searchVars ctx ident = None <->
   forall scope, scope ∈ vars ctx -> ~ declaredIn ident scope).
Proof.
  unfold searchVars. split.
  - intros v Hfound. apply searchScopes_Some in Hfound as (Hid & scope & Hin & Hv).
    apply (proj1 (elem_of_rev _ _)) in Hin. split; [assumption |]. exists scope. auto.
  - rewrite searchScopes_None. split; intros Hall scope Hin; apply Hall.
    + apply (proj2 (elem_of_rev _ _)). assumption.
    + apply (proj1 (elem_of_rev _ _)). assumption.
Qed.

(** X8.  Lookup goes by nesting: when no scope above [scope] declares
    the identifier, [searchVars] answers the first declaration of it in
    [scope], and only when [scope] has none does it look at the scopes
    below, innermost first. *)
Theorem searchVars_innermost (ctx : SemanticContext) (ident : string)
    (below above : list (list NVariableDeclaration))
    (scope : list NVariableDeclaration) :
  vars ctx = below ++ scope :: above ->
  Forall (fun inner => ~ declaredIn ident inner) above ->
  searchVars ctx ident =
  match find (fun v => bool_decide (ident = var_ident v)) scope with
  | Some v => Some v
  | None => searchScopes ident (rev below)
  end.
Proof.
  intros Hvars Habove. unfold searchVars.
  rewrite Hvars, rev_app_distr. simpl rev. rewrite <- app_assoc.
  rewrite searchScopes_app.
  replace (searchScopes ident (rev above)) with (@None NVariableDeclaration).
  - reflexivity.
  - symmetry. apply searchScopes_None. intros inner Hin.
    apply (proj1 (elem_of_rev _ _)) in Hin. rewrite Forall_forall in Habove. auto.
Qed.

Lemma registerVar_registerInto var ctx out scopes scope :
  indexed ctx ->
  vars ctx = scopes ++ [scope] ->
  exists b,
    registerVar var (ctx, out) =
    Returns (b, ({| currScope := currScope ctx;
                    vars := scopes ++ [registerInto scope var];
                    currType := currType ctx;
                    funcs := funcs ctx |}, out)).
Proof.
  intros Hidx Hvars.
  rewrite (registerVar_top var ctx out scopes scope Hidx Hvars).
  unfold registerInto.
  destruct (existsb _ scope); [| eauto].
  exists false. do 3 f_equal. destruct ctx. simpl in *. congruence.
Qed.

Lemma registerAll_top variables0 :
  forall ctx out scopes scope,
    indexed ctx ->
    vars ctx = scopes ++ [scope] ->
    registerAll variables0 (ctx, out) =
    Returns (tt, ({| currScope := currScope ctx;
                     vars := scopes ++ [fold_left registerInto variables0 scope];
                     currType := currType ctx;
                     funcs := funcs ctx |}, out)).
Proof.
  induction variables0 as [| var rest IH]; intros ctx out scopes scope Hidx Hvars.
  - simpl. run. do 3 f_equal. destruct ctx. simpl in *. congruence.
  - cbn [registerAll fold_left].
    destruct (registerVar_registerInto var ctx out scopes scope Hidx Hvars) as [b Hreg].
    rewrite (bind_eq _ _ _ _ _ Hreg).
    rewrite (IH _ out scopes (registerInto scope var)); [reflexivity | | reflexivity].
    unfold indexed in *. cbn [currScope vars]. rewrite Hidx, Hvars, !length_app.
    reflexivity.
Qed.

(** X9.  Scopes are isolated: pushing a scope, registering any
    variables and popping the scope gives back the very context one
    started from; nothing registered in between can be resolved later. *)
Theorem scope_round_trip (type : Z) (variables0 : list NVariableDeclaration)
    (ctx : SemanticContext) (out : list diagnostic) :
  indexed ctx ->
  (newScope type ;;; registerAll variables0 ;;; delScope) (ctx, out)
  = Returns (tt, (ctx, out)).
Proof.
  intros Hidx.
  destruct (newScope_shifted type ctx out) as (ctx1 & Hnew & Hshift & _).
  rewrite (bind_eq _ _ _ _ _ Hnew).
  assert (Hctx1 : ctx1 = {| currScope := currScope ctx + 1; vars := vars ctx ++ [[]];
                            currType := currType ctx ++ [type]; funcs := funcs ctx |}).
  { revert Hnew. unfold newScope. run. intros Heq. injection Heq as <-. reflexivity. }
  pose proof (shifted_indexed 1 ctx ctx1 Hshift Hidx) as Hidx1. subst ctx1.
  rewrite (bind_eq _ _ _ _ _ (registerAll_top variables0 _ out (vars ctx) [] Hidx1 eq_refl)).
  erewrite delScope_snoc; [| reflexivity | reflexivity].
  cbn [currScope funcs]. do 3 f_equal.
  destruct ctx. simpl. f_equal. lia.
Qed.

Lemma find_registerInto ident scope var :
  find (fun v => bool_decide (ident = var_ident v)) (registerInto scope var) =
  match find (fun v => bool_decide (ident = var_ident v)) scope with
  | Some v => Some v
  | None => if bool_decide (ident = var_ident var) then Some var else None
  end.
Proof.
  unfold registerInto.
  destruct (existsb (fun v => bool_decide (var_ident var = var_ident v)) scope) eqn:Hdup.
  - destruct (find (fun v => bool_decide (ident = var_ident v)) scope) eqn:Hfind;
      [reflexivity |].
    case_bool_decide as Hid; [| reflexivity]. subst ident.
    apply existsb_find in Hdup as [w Hw]. congruence.
  - rewrite find_snoc. reflexivity.
Qed.

Lemma find_fold_registerInto ident variables0 :
  forall scope,
    find (fun v => bool_decide (ident = var_ident v))
      (fold_left registerInto variables0 scope) =
    match find (fun v => bool_decide (ident = var_ident v)) scope with
    | Some v => Some v
    | None => find (fun v => bool_decide (ident = var_ident v)) variables0
    end.
Proof.
  induction variables0 as [| var rest IH]; intros scope; simpl.
  - destruct (find _ scope); reflexivity.
  - rewrite IH, find_registerInto.
    destruct (find (fun v => bool_decide (ident = var_ident v)) scope); [reflexivity |].
    destruct (bool_decide (ident = var_ident var)); reflexivity.
Qed.

(** X10.  In the scope entered for a function, an identifier resolves
    to the first parameter of that name, a later parameter of the same
    name being dropped without a diagnostic, and otherwise as it did
    outside the function. *)
Theorem enterFunction_resolution (f : NFunctionDeclaration)
    (ctx ctx1 : SemanticContext) (out out1 : list diagnostic) (ident : string) :
  indexed ctx ->
  enterFunction f (ctx, out) = Returns (tt, (ctx1, out1)) ->
  out1 = out /\
  searchVars ctx1 ident =
  match find (fun v => bool_decide (ident = var_ident v)) (variables f) with
  | Some v => Some v
  | None => searchVars ctx ident
  end.
Proof.
  intros Hidx Henter. unfold enterFunction in Henter.
  destruct (newScope_shifted (condType (negb (listReturn f)) (func_type f)) ctx out)
    as (ctx0 & Hnew & Hshift & _).
  rewrite (bind_eq _ _ _ _ _ Hnew) in Henter.
  assert (Hvars0 : vars ctx0 = vars ctx ++ [[]]).
  { revert Hnew. unfold newScope. run. intros Heq. injection Heq as <-. reflexivity. }
  rewrite (registerAll_top (variables f) ctx0 out (vars ctx) []
             (shifted_indexed 1 ctx ctx0 Hshift Hidx) Hvars0) in Henter.
  injection Henter as <- <-. split; [reflexivity |].
  erewrite searchVars_top by reflexivity.
  rewrite find_fold_registerInto. simpl.
  destruct (find _ (variables f)); reflexivity.
Qed.

(** *** Outer scopes are left alone *)

Lemma length_removelast_S {A} (l : list A) :
  l <> [] -> S (length (removelast l)) = length l.
Proof.
  destruct l as [| x l]; [contradiction |]. intros Hne.
  rewrite (app_removelast_last x Hne) at 2.
  rewrite length_app. simpl. lia.
Qed.

Lemma prefix_removelast_strict {A} (l l' : list A) :
  l `prefix_of` l' -> (length l < length l')%nat -> l `prefix_of` removelast l'.
Proof.
  intros [k ->] Hlen. rewrite length_app in Hlen.
  assert (Hk : k <> []) by (intros ->; simpl in Hlen; lia).
  rewrite removelast_app by assumption. exists (removelast k). reflexivity.
Qed.

Lemma removelast_prefix l : @removelast (list NVariableDeclaration) l `prefix_of` l.
Proof.
  destruct l as [| x l]; [exists []; reflexivity |].
  exists [List.last (x :: l) x]. apply app_removelast_last. discriminate.
Qed.

Lemma removelast_prefix_grow (l l' : list (list NVariableDeclaration)) :
  l <> [] -> removelast l `prefix_of` l' -> (length l <= length l')%nat ->
  removelast l `prefix_of` removelast l'.
Proof.
  intros Hne Hpre Hlen. apply prefix_removelast_strict; [assumption |].
  pose proof (length_removelast_S l Hne). lia.
Qed.

Lemma delScope_inv ctx out u ctx' out' :
  delScope (ctx, out) = Returns (u, (ctx', out')) ->
  ctx' = {| currScope := currScope ctx - 1; vars := removelast (vars ctx);
            currType := removelast (currType ctx); funcs := funcs ctx |} /\
  out' = out /\ vars ctx <> [] /\ currType ctx <> [].
Proof.
  unfold delScope. unfold bind, getCtx, putCtx, undefined. cbn [fst snd].
  destruct (vars ctx) as [| s0 l0] eqn:Hv; [discriminate |].
  destruct (currType ctx) as [| t0 ts0] eqn:Ht; [discriminate |].
  intros Heq. injection Heq as _ <- <-. repeat split; discriminate.
Qed.

Lemma newScope_eq type ctx out :
  newScope type (ctx, out) =
  Returns (tt, ({| currScope := currScope ctx + 1; vars := vars ctx ++ [[]];
                   currType := currType ctx ++ [type]; funcs := funcs ctx |}, out)).
Proof. reflexivity. Qed.

Lemma shifted_nonempty k ctx ctx' :
  shifted k ctx ctx' -> 0 <= k -> vars ctx <> [] -> vars ctx' <> [].
Proof.
  intros (_ & _ & Hv & _) Hk Hne Hnil. rewrite Hnil in Hv.
  destruct (vars ctx); [contradiction | simpl in Hv; lia].
Qed.

Lemma allStatements_framed analyse statements :
  Forall (fun s => framed (analyse s) /\ leaves (analyse s)) statements ->
  framed (allStatements analyse statements).
Proof.
  induction 1 as [| s rest [Hframed Hleaves] _ IH];
    intros ctx out b ctx' out' Hrun Hidx Hne; simpl in Hrun.
  - revert Hrun. run. intros Heq. injection Heq as <- <- <-.
    split; [apply removelast_prefix | reflexivity].
  - apply bind_Returns in Hrun as (ok & [ctx1 out1] & Hfirst & Hrest).
    destruct (Hframed _ _ _ _ _ Hfirst Hidx Hne) as [Hv1 Ht1].
    destruct (Hleaves _ _ _ _ _ Hfirst) as (j & Hj & Hshift & _).
    destruct ok.
    + destruct (IH _ _ _ _ _ Hrest (shifted_indexed _ _ _ Hshift Hidx)
                  (shifted_nonempty _ _ _ Hshift Hj Hne)) as [Hv2 Ht2].
      split; [| etrans; eassumption].
      etrans; [| exact Hv2]. apply removelast_prefix_grow; try assumption.
      destruct Hshift as (_ & _ & Hv & _). lia.
    + revert Hrest. run. intros Heq. injection Heq as <- <- <-. auto.
Qed.

(** A block works above the scopes it finds, and leaves them exactly
    as they were when it succeeds. *)
Lemma NBlock_semanticAnalysis_framed analyse statements ctx out b ctx' out' :
  Forall (fun s => framed (analyse s) /\ leaves (analyse s)) statements ->
  NBlock_semanticAnalysis analyse statements (ctx, out) = Returns (b, (ctx', out')) ->
  indexed ctx ->
  vars ctx `prefix_of` vars ctx' /\ currType ctx `prefix_of` currType ctx' /\
  (b = true -> ctx' = ctx).
Proof.
  intros Hall Hrun Hidx. unfold NBlock_semanticAnalysis in Hrun.
  apply bind_Returns in Hrun as (type & [ctx0 out0] & Hback & Hrun).
  assert (ctx0 = ctx) as ->.
  { revert Hback. run. destruct (last (currType ctx)); [| discriminate].
    intros Heq. injection Heq as _ <- _. reflexivity. }
  rewrite (bind_eq _ _ _ _ _ (newScope_eq type ctx out0)) in Hrun.
  set (ctx1 := {| currScope := currScope ctx + 1; vars := vars ctx ++ [[]];
                  currType := currType ctx ++ [type]; funcs := funcs ctx |}) in Hrun.
  assert (Hidx1 : indexed ctx1).
  { unfold indexed in *. cbn [ctx1 currScope vars]. rewrite length_app. simpl. lia. }
  assert (Hne1 : vars ctx1 <> []) by (cbn [ctx1 vars]; destruct (vars ctx); discriminate).
  apply bind_Returns in Hrun as (ok & [ctx2 out2] & Hloop & Hrun).
  pose proof (allStatements_framed _ _ Hall _ _ _ _ _ Hloop Hidx1 Hne1) as [Hv2 Ht2].
  assert (Hleaves : Forall (fun s => leaves (analyse s)) statements)
    by (eapply Forall_impl; [exact Hall | intros s [_ Hl]; exact Hl]).
  pose proof (allStatements_leaves _ _ Hleaves _ _ _ _ _ Hloop) as (j & Hj & Hshift & Hok).
  cbn [ctx1 vars currType] in Hv2, Ht2. rewrite removelast_last in Hv2.
  destruct Hshift as (Hf & Hs & Hv & Ht). cbn [ctx1 vars currType currScope funcs] in *.
  rewrite length_app in Hv, Ht. simpl in Hv, Ht.
  destruct ok.
  - apply bind_Returns in Hrun as (u & [ctx3 out3] & Hdel & Hret).
    apply delScope_inv in Hdel as (-> & -> & _ & _).
    revert Hret. run. intros Heq. injection Heq as <- <- <-.
    specialize (Hok eq_refl). subst j.
    destruct Hv2 as [kv Hkv]. destruct Ht2 as [kt Hkt].
    assert (Hkv1 : exists scope, kv = [scope]).
    { rewrite Hkv, length_app in Hv. destruct kv as [| scope [| ? ?]];
        simpl in Hv; try lia. eauto. }
    destruct Hkv1 as [scope ->].
    assert (kt = []) as ->.
    { rewrite Hkt, !length_app in Ht. destruct kt; [reflexivity | simpl in Ht; lia]. }
    rewrite app_nil_r in Hkt.
    assert (Heq : {| currScope := currScope ctx2 - 1; vars := removelast (vars ctx2);
                     currType := removelast (currType ctx2); funcs := funcs ctx2 |} = ctx).
    { rewrite Hkv, Hkt, !removelast_last, Hs, Hf. destruct ctx. simpl. f_equal. lia. }
    rewrite Heq. split; [reflexivity |]. split; [reflexivity | auto].
  - revert Hrun. run. intros Heq. injection Heq as <- <- <-.
    split; [assumption |]. split; [| discriminate].
    etrans; [| exact Ht2]. exists [type]. reflexivity.
Qed.

Lemma NAssignmentStatement_ctx ident e ctx out b ctx' out' :
  NAssignmentStatement_semanticAnalysis ident e (ctx, out) = Returns (b, (ctx', out')) ->
  ctx' = ctx.
Proof.
  run. destruct (searchVars ctx ident); [| discriminate].
  case_bool_decide; intros Heq; injection Heq as _ <- _; reflexivity.
Qed.

Lemma NReturn_ctx retExpr ctx out b ctx' out' :
  NReturn_semanticAnalysis retExpr (ctx, out) = Returns (b, (ctx', out')) ->
  ctx' = ctx.
Proof.
  run. destruct (last (currType ctx)); [| discriminate].
  case_bool_decide; intros Heq; injection Heq as _ <- _; reflexivity.
Qed.

Lemma expr_semanticAnalysis_ctx e ctx out b ctx' out' :
  expr_semanticAnalysis e (ctx, out) = Returns (b, (ctx', out')) -> ctx' = ctx.
Proof.
  destruct (expr_semanticAnalysis_frame e ctx out) as (b0 & printed & Hframe).
  rewrite Hframe. intros Heq. injection Heq as _ <- _. reflexivity.
Qed.

(** A declaration changes the context by its registration only. *)
Lemma NVariableDeclaration_ctx d ctx out b ctx' out' :
  NVariableDeclaration_semanticAnalysis d (ctx, out) = Returns (b, (ctx', out')) ->
  exists registered, registerVar d (ctx, out) = Returns (registered, (ctx', out)).
Proof.
  unfold NVariableDeclaration_semanticAnalysis. intros Hrun.
  apply bind_Returns in Hrun as (registered & [ctx1 out1] & Hreg & Hrun).
  pose proof (registerVar_shifted _ _ _ _ _ _ Hreg) as [_ ->].
  exists registered. rewrite Hreg. do 3 f_equal.
  destruct registered.
  - destruct (initializationExpression d) as [init |].
    + revert Hrun. run. case_bool_decide.
      * destruct (expr_semanticAnalysis_frame init ctx1 out) as (b0 & printed & Hframe).
        rewrite Hframe. destruct b0; intros Heq; injection Heq as _ <- _; reflexivity.
      * intros Heq; injection Heq as _ <- _; reflexivity.
    + revert Hrun. run. intros Heq; injection Heq as _ <- _; reflexivity.
  - revert Hrun. run. intros Heq; injection Heq as _ <- _; reflexivity.
Qed.

Lemma enterFunction_eq f ctx out :
  indexed ctx ->
  enterFunction f (ctx, out) =
  Returns (tt, ({| currScope := currScope ctx + 1;
                   vars := vars ctx ++ [fold_left registerInto (variables f) []];
                   currType := currType ctx ++ [condType (negb (listReturn f)) (func_type f)];
                   funcs := funcs ctx |}, out)).
Proof.
  intros Hidx. unfold enterFunction.
  rewrite (bind_eq _ _ _ _ _ (newScope_eq _ ctx out)).
  erewrite registerAll_top; [reflexivity | | reflexivity].
  unfold indexed in *. cbn [currScope vars]. rewrite length_app. simpl. lia.
Qed.

(** A function declaration works above the scopes it finds, and leaves
    them exactly as they were when it succeeds. *)
Lemma NFunctionDeclaration_framed fuel f ctx out b ctx' out' :
  Forall (fun s => framed (semanticAnalysis fuel s) /\ leaves (semanticAnalysis fuel s))
    (body f) ->
  semanticAnalysis fuel (NFunctionDeclarationStmt f) (ctx, out) = Returns (b, (ctx', out')) ->
  indexed ctx ->
  vars ctx `prefix_of` vars ctx' /\ currType ctx `prefix_of` currType ctx' /\
  (b = true -> ctx' = ctx).
Proof.
  intros Hall Hrun Hidx. cbn [semanticAnalysis] in Hrun.
  rewrite (bind_eq _ _ _ _ _ (enterFunction_eq f ctx out Hidx)) in Hrun.
  set (ctx1 := {| currScope := currScope ctx + 1;
                  vars := vars ctx ++ [fold_left registerInto (variables f) []];
                  currType := currType ctx ++ [condType (negb (listReturn f)) (func_type f)];
                  funcs := funcs ctx |}) in Hrun.
  assert (Hidx1 : indexed ctx1).
  { unfold indexed in *. cbn [ctx1 currScope vars]. rewrite length_app. simpl. lia. }
  apply bind_Returns in Hrun as (blockSA & [ctx3 out3] & Hbody & Hrun).
  apply (NBlock_semanticAnalysis_framed _ _ _ _ _ _ _ Hall) in Hbody
    as (Hv3 & Ht3 & Hsame); [| exact Hidx1].
  apply bind_Returns in Hrun as (ctx3' & [ctx3'' out3'] & Hget & Hrun).
  revert Hget. run. intros Heq. injection Heq as <- <- <-.
  apply bind_Returns in Hrun as (blockRecur & [ctx4 out4] & Hrec & Hrun).
  apply lift_Returns in Hrec as [Hrec Hst]. cbn [fst snd] in Hrec, Hst.
  injection Hst as -> ->.
  apply bind_Returns in Hrun as (u2 & [ctx5 out5] & Hprint & Hrun).
  assert (ctx5 = ctx3) as ->.
  { revert Hprint. destruct blockRecur; run; intros Heq; injection Heq as _ <- _; reflexivity. }
  apply bind_Returns in Hrun as (u3 & [ctx6 out6] & Hdel & Hrun).
  apply delScope_inv in Hdel as (-> & -> & _ & _).
  revert Hrun. run. intros Heq. injection Heq as <- <- <-.
  cbn [ctx1 vars currType] in Hv3, Ht3. cbn [vars currType].
  destruct Hv3 as [kv Hkv]. destruct Ht3 as [kt Hkt].
  split; [| split].
  - rewrite Hkv, <- app_assoc, removelast_app by discriminate. eexists. reflexivity.
  - rewrite Hkt, <- app_assoc, removelast_app by discriminate. eexists. reflexivity.
  - intros Hb. apply andb_true_iff in Hb as [-> _]. rewrite (Hsame eq_refl).
    cbn [ctx1 currScope vars currType funcs]. rewrite !removelast_last.
    destruct ctx. simpl. f_equal. lia.
Qed.

Lemma semanticAnalysis_framed fuel s :
  framed (semanticAnalysis fuel s) /\ leaves (semanticAnalysis fuel s).
Proof.
  split; [| apply semanticAnalysis_leaves].
  induction s as [statements IH | ident e | retExpr | e | d | f IH]
    using stmt_nested_ind; intros ctx out b ctx' out' Hrun Hidx Hne;
    cbn [semanticAnalysis] in Hrun.
  - apply NBlock_semanticAnalysis_framed in Hrun as (Hv & Ht & _); [| | assumption].
    + split; [| assumption]. etrans; [apply removelast_prefix | exact Hv].
    + eapply Forall_impl; [exact IH |]. intros s Hs.
      split; [exact Hs | apply semanticAnalysis_leaves].
  - apply NAssignmentStatement_ctx in Hrun as ->.
    split; [apply removelast_prefix | reflexivity].
  - apply NReturn_ctx in Hrun as ->.
    split; [apply removelast_prefix | reflexivity].
  - apply expr_semanticAnalysis_ctx in Hrun as ->.
    split; [apply removelast_prefix | reflexivity].
  - apply NVariableDeclaration_ctx in Hrun as [registered Hreg].
    destruct (exists_last Hne) as (scopes & scope & Hvars).
    destruct (registerVar_registerInto d ctx out scopes scope Hidx Hvars) as [b0 Hreg'].
    rewrite Hreg' in Hreg. injection Hreg as _ <-. cbn [vars currType].
    rewrite Hvars, removelast_last. split; [eexists; reflexivity | reflexivity].
  - assert (Hrun' : semanticAnalysis fuel (NFunctionDeclarationStmt f) (ctx, out)
                    = Returns (b, (ctx', out'))) by exact Hrun.
    apply NFunctionDeclaration_framed in Hrun' as (Hv & Ht & _); [| | assumption].
    + split; [| assumption]. etrans; [apply removelast_prefix | exact Hv].
    + eapply Forall_impl; [exact IH |]. intros s Hs.
      split; [exact Hs | apply semanticAnalysis_leaves].
Qed.

(** X11.  The check of a statement never drops or rewrites a scope
    below the innermost one, and never drops an expected return type:
    the scopes but the last and the whole return-type stack are found
    again, in place, in the context it leaves. *)
Theorem semanticAnalysis_keeps_outer_scopes (fuel : nat) (s : stmt)
    (ctx ctx' : SemanticContext) (out out' : list diagnostic) (b : bool) :
  indexed ctx -> vars ctx <> [] ->
  semanticAnalysis fuel s (ctx, out) = Returns (b, (ctx', out')) ->
  removelast (vars ctx) `prefix_of` vars ctx' /\
  currType ctx `prefix_of` currType ctx'.
Proof.
  intros Hidx Hne Hrun.
  apply (proj1 (semanticAnalysis_framed fuel s) _ _ _ _ _ Hrun Hidx Hne).
Qed.

(** X12.  A block that passes its check leaves the context exactly as
    it found it: what its statements declared is gone with its scope. *)
Theorem NBlock_success_restores (fuel : nat) (statements : list stmt)
    (ctx ctx' : SemanticContext) (out out' : list diagnostic) :
  indexed ctx ->
  semanticAnalysis fuel (NBlock statements) (ctx, out) = Returns (true, (ctx', out')) ->
  ctx' = ctx.
Proof.
  intros Hidx Hrun. cbn [semanticAnalysis] in Hrun.
  apply NBlock_semanticAnalysis_framed in Hrun as (_ & _ & Hsame); auto.
  apply Forall_forall. intros s _. apply semanticAnalysis_framed.
Qed.

(** X13.  A function declaration that passes its check leaves the
    context exactly as it found it: its parameters and whatever its
    body declared are gone with its scope. *)
Theorem NFunctionDeclaration_success_restores (fuel : nat) (f : NFunctionDeclaration)
    (ctx ctx' : SemanticContext) (out out' : list diagnostic) :
  indexed ctx ->
  semanticAnalysis fuel (NFunctionDeclarationStmt f) (ctx, out)
  = Returns (true, (ctx', out')) ->
  ctx' = ctx.
Proof.
  intros Hidx Hrun.
  apply NFunctionDeclaration_framed in Hrun as (_ & _ & Hsame); auto.
  apply Forall_forall. intros s _. apply semanticAnalysis_framed.
Qed.

(** *** Invariants of the analysis *)

Section Invariant.
Variable I : SemanticContext -> Prop.
Hypothesis I_newScope : forall type ctx,
    I ctx ->
    I {| currScope := currScope ctx + 1; vars := vars ctx ++ [[]];
         currType := currType ctx ++ [type]; funcs := funcs ctx |}.
Hypothesis I_delScope : forall ctx,
    I ctx ->
    I {| currScope := currScope ctx - 1; vars := removelast (vars ctx);
         currType := removelast (currType ctx); funcs := funcs ctx |}.
Hypothesis I_registerVar : forall var ctx out b ctx' out',
    registerVar var (ctx, out) = Returns (b, (ctx', out')) -> I ctx -> I ctx'.

Lemma registerAll_preserves variables0 :
  forall ctx out u ctx' out',
    registerAll variables0 (ctx, out) = Returns (u, (ctx', out')) -> I ctx -> I ctx'.
Proof.
  induction variables0 as [| var rest IH]; intros ctx out u ctx' out'; simpl.
  - run. intros Heq. injection Heq as _ <- _. auto.
  - intros Hrun HI. apply bind_Returns in Hrun as (b & [ctx1 out1] & Hreg & Hrest).
    eapply IH; [exact Hrest |]. eapply I_registerVar; eassumption.
Qed.

Lemma allStatements_preserves analyse statements :
  Forall (fun s => forall ctx out b ctx' out',
              analyse s (ctx, out) = Returns (b, (ctx', out')) -> I ctx -> I ctx')
    statements ->
  forall ctx out b ctx' out',
    allStatements analyse statements (ctx, out) = Returns (b, (ctx', out')) ->
    I ctx -> I ctx'.
Proof.
  induction 1 as [| s rest Hs _ IH]; intros ctx out b ctx' out'; simpl.
  - run. intros Heq. injection Heq as _ <- _. auto.
  - intros Hrun HI. apply bind_Returns in Hrun as (ok & [ctx1 out1] & Hfirst & Hrest).
    pose proof (Hs _ _ _ _ _ Hfirst HI) as HI1. destruct ok.
    + eapply IH; eassumption.
    + revert Hrest. run. intros Heq. injection Heq as _ <- _. assumption.
Qed.

Lemma NBlock_preserves analyse statements :
  Forall (fun s => forall ctx out b ctx' out',
              analyse s (ctx, out) = Returns (b, (ctx', out')) -> I ctx -> I ctx')
    statements ->
  forall ctx out b ctx' out',
    NBlock_semanticAnalysis analyse statements (ctx, out) = Returns (b, (ctx', out')) ->
    I ctx -> I ctx'.
Proof.
  intros Hall ctx out b ctx' out' Hrun HI. unfold NBlock_semanticAnalysis in Hrun.
  apply bind_Returns in Hrun as (type & [ctx0 out0] & Hback & Hrun).
  assert (ctx0 = ctx) as ->.
  { revert Hback. run. destruct (last (currType ctx)); [| discriminate].
    intros Heq. injection Heq as _ <- _. reflexivity. }
  rewrite (bind_eq _ _ _ _ _ (newScope_eq type ctx out0)) in Hrun.
  apply bind_Returns in Hrun as (ok & [ctx2 out2] & Hloop & Hrun).
  pose proof (allStatements_preserves _ _ Hall _ _ _ _ _ Hloop (I_newScope type ctx HI))
    as HI2.
  destruct ok.
  - apply bind_Returns in Hrun as (u & [ctx3 out3] & Hdel & Hret).
    apply delScope_inv in Hdel as (-> & -> & _ & _).
    revert Hret. run. intros Heq. injection Heq as _ <- _. apply I_delScope. assumption.
  - revert Hrun. run. intros Heq. injection Heq as _ <- _. assumption.
Qed.

Lemma semanticAnalysis_preserves fuel s :
  forall ctx out b ctx' out',
    semanticAnalysis fuel s (ctx, out) = Returns (b, (ctx', out')) -> I ctx -> I ctx'.
Proof.
  induction s as [statements IH | ident e | retExpr | e | d | f IH]
    using stmt_nested_ind; intros ctx out b ctx' out' Hrun HI;
    cbn [semanticAnalysis] in Hrun.
  - eapply NBlock_preserves; eassumption.
  - apply NAssignmentStatement_ctx in Hrun as ->. assumption.
  - apply NReturn_ctx in Hrun as ->. assumption.
  - apply expr_semanticAnalysis_ctx in Hrun as ->. assumption.
  - apply NVariableDeclaration_ctx in Hrun as [registered Hreg].
    eapply I_registerVar; eassumption.
  - apply bind_Returns in Hrun as (u & [ctx1 out1] & Henter & Hrun).
    assert (HI1 : I ctx1).
    { unfold enterFunction in Henter.
      rewrite (bind_eq _ _ _ _ _ (newScope_eq _ ctx out)) in Henter.
      eapply registerAll_preserves; [exact Henter |]. apply I_newScope. assumption. }
    apply bind_Returns in Hrun as (blockSA & [ctx3 out3] & Hbody & Hrun).
    pose proof (NBlock_preserves _ _ IH _ _ _ _ _ Hbody HI1) as HI3.
    apply bind_Returns in Hrun as (ctx3' & [ctx3'' out3'] & Hget & Hrun).
    revert Hget. run. intros Heq. injection Heq as <- <- <-.
    apply bind_Returns in Hrun as (blockRecur & [ctx4 out4] & Hrec & Hrun).
    apply lift_Returns in Hrec as [Hrec Hst]. cbn [fst snd] in Hrec, Hst.
    injection Hst as -> ->.
    apply bind_Returns in Hrun as (u2 & [ctx5 out5] & Hprint & Hrun).
    assert (ctx5 = ctx3) as ->.
    { revert Hprint. destruct blockRecur; run; intros Heq; injection Heq as _ <- _;
        reflexivity. }
    apply bind_Returns in Hrun as (u3 & [ctx6 out6] & Hdel & Hrun).
    apply delScope_inv in Hdel as (-> & -> & _ & _).
    revert Hrun. run. intros Heq. injection Heq as _ <- _. apply I_delScope. assumption.
Qed.

End Invariant.

Lemma registerVar_uniqueScopes var ctx out b ctx' out' :
  registerVar var (ctx, out) = Returns (b, (ctx', out')) ->
  uniqueScopes ctx -> uniqueScopes ctx'.
Proof.
  unfold registerVar, uniqueScopes, scopeAt. run.
  destruct (0 <=? currScope ctx); [| discriminate].
  destruct (vars ctx !! Z.to_nat (currScope ctx)) as [scope |] eqn:Hscope;
    [| discriminate].
  destruct (existsb (fun v => bool_decide (var_ident var = var_ident v)) scope) eqn:Hdup;
    intros Heq Huniq; injection Heq as _ <- _; [assumption |].
  cbn [vars]. apply Forall_insert; [assumption |].
  rewrite map_app. apply NoDup_app.
  split; [apply (Forall_lookup_1 _ _ _ _ Huniq Hscope) |].
  split; [| apply NoDup_singleton].
  intros ident Hin Hnew. apply list_elem_of_singleton in Hnew as ->.
  apply list_elem_of_In, in_map_iff in Hin as (v & Hid & Hv).
  assert (Htrue : existsb (fun v => bool_decide (var_ident var = var_ident v)) scope = true).
  { apply existsb_exists. exists v. split; [assumption |].
    apply bool_decide_eq_true. congruence. }
  congruence.
Qed.

(** X14.  Whatever statement is checked and whatever the verdict, the
    context keeps its shape: the function registry is not changed,
    [currScope] still designates the innermost scope, the two stacks
    are still level, no scope declares an identifier twice, and no
    scope has been lost. *)
Theorem semanticAnalysis_invariants (fuel : nat) (s : stmt)
    (ctx ctx' : SemanticContext) (out out' : list diagnostic) (b : bool) :
  semanticAnalysis fuel s (ctx, out) = Returns (b, (ctx', out')) ->
  funcs ctx' = funcs ctx /\
  (indexed ctx -> indexed ctx') /\
  (balanced ctx -> balanced ctx') /\
  (uniqueScopes ctx -> uniqueScopes ctx') /\
  (length (vars ctx) <= length (vars ctx'))%nat.
Proof.
  intros Hrun.
  destruct (semanticAnalysis_balanced _ _ _ _ _ _ _ Hrun) as (Hbal & Hidx & Hfuncs).
  destruct (semanticAnalysis_leaves _ _ _ _ _ _ _ Hrun) as (k & Hk & (_ & _ & Hv & _) & _).
  split; [assumption |]. split; [assumption |]. split; [assumption |].
  split; [| lia].
  apply (semanticAnalysis_preserves uniqueScopes) with (fuel := fuel) (s := s)
    (out := out) (b := b) (out' := out'); [| | | assumption].
  - intros type ctx0 Huniq. unfold uniqueScopes in *. cbn [vars].
    apply Forall_app. split; [assumption |]. repeat constructor.
  - intros ctx0 Huniq. unfold uniqueScopes in *. cbn [vars].
    destruct (vars ctx0) as [| scope scopes] eqn:Hvars; [constructor |].
    rewrite (app_removelast_last scope (l := scope :: scopes)) in Huniq by discriminate.
    apply Forall_app in Huniq as [Huniq _]. assumption.
  - apply registerVar_uniqueScopes.
Qed.

(** *** Diagnostics *)

Lemma reports_ret_true (out : list diagnostic) :
  exists printed : list diagnostic,
    out = out ++ printed /\ (true = true -> printed = []) /\
    (Node_semanticAnalysis = true -> true = false -> printed <> []).
Proof. exists []. rewrite app_nil_r. repeat split; auto; discriminate. Qed.

Lemma reports_print_false out (d : diagnostic) :
  exists printed : list diagnostic,
    out ++ [d] = out ++ printed /\ (false = true -> printed = []) /\
    (Node_semanticAnalysis = true -> false = false -> printed <> []).
Proof. exists [d]. repeat split; discriminate. Qed.

Lemma expr_semanticAnalysis_reports e : reports (expr_semanticAnalysis e).
Proof.
  intros ctx out b ctx' out'. destruct e; simpl; run.
  1-3: intros Heq; injection Heq as <- <- <-; exists []; rewrite app_nil_r;
       (split; [reflexivity |]); (split; [reflexivity |]); congruence.
  - destruct (searchFuncs ctx ident).
    + case_bool_decide.
      * destruct (argsMatch _ _ _); intros Heq; injection Heq as <- <- <-;
          [apply reports_ret_true | apply reports_print_false].
      * intros Heq; injection Heq as <- <- <-. apply reports_print_false.
    + intros Heq; injection Heq as <- <- <-. apply reports_print_false.
  - case_bool_decide; intros Heq; injection Heq as <- <- <-;
      [apply reports_ret_true | apply reports_print_false].
Qed.

Lemma allStatements_reports analyse statements :
  Forall (fun s => reports (analyse s)) statements ->
  reports (allStatements analyse statements).
Proof.
  induction 1 as [| s rest Hs _ IH]; intros ctx out b ctx' out'; simpl.
  - run. intros Heq. injection Heq as <- <- <-. apply reports_ret_true.
  - intros Hrun. apply bind_Returns in Hrun as (ok & [ctx1 out1] & Hfirst & Hrest).
    apply Hs in Hfirst as (printed1 & -> & Hsilent1 & Hloud1). destruct ok.
    + apply IH in Hrest as (printed2 & -> & Hsilent2 & Hloud2).
      rewrite (Hsilent1 eq_refl), app_nil_r. exists printed2. auto.
    + revert Hrest. run. intros Heq. injection Heq as <- <- <-.
      exists printed1. auto.
Qed.

Lemma NBlock_semanticAnalysis_reports analyse statements :
  Forall (fun s => reports (analyse s)) statements ->
  reports (NBlock_semanticAnalysis analyse statements).
Proof.
  intros Hall ctx out b ctx' out' Hrun. unfold NBlock_semanticAnalysis in Hrun.
  apply bind_Returns in Hrun as (type & [ctx0 out0] & Hback & Hrun).
  assert (out0 = out) as ->.
  { revert Hback. run. destruct (last (currType ctx)); [| discriminate].
    intros Heq. injection Heq as _ _ <-. reflexivity. }
  rewrite (bind_eq _ _ _ _ _ (newScope_eq type ctx0 out)) in Hrun.
  apply bind_Returns in Hrun as (ok & [ctx2 out2] & Hloop & Hrun).
  apply (allStatements_reports _ _ Hall) in Hloop as (printed & -> & Hsilent & Hloud).
  destruct ok.
  - apply bind_Returns in Hrun as (u & [ctx3 out3] & Hdel & Hret).
    apply delScope_inv in Hdel as (_ & -> & _ & _).
    revert Hret. run. intros Heq. injection Heq as <- <- <-. exists printed. auto.
  - revert Hrun. run. intros Heq. injection Heq as <- <- <-. exists printed. auto.
Qed.

(** X15.  The diagnostics tell the verdict: what a check prints is
    added after what was printed before; a check that returns true has
    printed nothing; and, when the nodes that inherit
    [semanticAnalysis] pass, a check that returns false has printed at
    least one diagnostic. *)
Theorem semanticAnalysis_diagnostics (fuel : nat) (s : stmt)
    (ctx ctx' : SemanticContext) (out out' : list diagnostic) (b : bool) :
  semanticAnalysis fuel s (ctx, out) = Returns (b, (ctx', out')) ->
  exists printed,
    out' = out ++ printed /\
    (b = true -> printed = []) /\
    (Node_semanticAnalysis = true -> b = false -> printed <> []).
Proof.
  revert ctx out b ctx' out'.
  change (reports (semanticAnalysis fuel s)).
  induction s as [statements IH | ident e | retExpr | e | d | f IH]
    using stmt_nested_ind; intros ctx out b ctx' out' Hrun;
    cbn [semanticAnalysis] in Hrun.
  - apply (NBlock_semanticAnalysis_reports _ _ IH) in Hrun. exact Hrun.
  - revert Hrun. run. destruct (searchVars ctx ident); [| discriminate].
    case_bool_decide; intros Heq; injection Heq as <- <- <-;
      [apply reports_ret_true | apply reports_print_false].
  - revert Hrun. run. destruct (last (currType ctx)); [| discriminate].
    case_bool_decide; intros Heq; injection Heq as <- <- <-;
      [apply reports_ret_true | apply reports_print_false].
  - apply expr_semanticAnalysis_reports in Hrun. exact Hrun.
  - unfold NVariableDeclaration_semanticAnalysis in Hrun.
    apply bind_Returns in Hrun as (registered & [ctx1 out1] & Hreg & Hrun).
    apply registerVar_shifted in Hreg as [_ ->].
    destruct registered.
    + destruct (initializationExpression d) as [init |].
      * revert Hrun. run. case_bool_decide.
        -- destruct (expr_semanticAnalysis init (ctx1, out)) as [[ok [ctx2 out2]] | |]
             eqn:Hinit; [| discriminate | discriminate].
           apply expr_semanticAnalysis_reports in Hinit
             as (printed & -> & Hsilent & Hloud).
           destruct ok; cbn [fst snd]; intros Heq; injection Heq as <- <- <-.
           ++ exists printed. auto.
           ++ exists (printed ++ [VarMismatch (var_ident d)]).
              rewrite app_assoc. repeat split; try discriminate.
              intros _ _ Hnil. apply app_eq_nil in Hnil as [_ Hnil]. discriminate.
        -- intros Heq; injection Heq as <- <- <-. apply reports_print_false.
      * revert Hrun. run. intros Heq; injection Heq as <- <- <-.
        apply reports_ret_true.
    + revert Hrun. run. intros Heq; injection Heq as <- <- <-.
      apply reports_print_false.
  - apply bind_Returns in Hrun as (u & [ctx1 out1] & Henter & Hrun).
    apply enterFunction_shifted in Henter as [_ ->].
    apply bind_Returns in Hrun as (blockSA & [ctx3 out3] & Hbody & Hrun).
    apply (NBlock_semanticAnalysis_reports _ _ IH) in Hbody
      as (printed & -> & Hsilent & Hloud).
    apply bind_Returns in Hrun as (ctx3' & [ctx3'' out3'] & Hget & Hrun).
    revert Hget. run. intros Heq. injection Heq as <- <- <-.
    apply bind_Returns in Hrun as (blockRecur & [ctx4 out4] & Hrec & Hrun).
    apply lift_Returns in Hrec as [Hrec Hst]. cbn [fst snd] in Hrec, Hst.
    injection Hst as -> ->.
    apply bind_Returns in Hrun as (u2 & [ctx5 out5] & Hprint & Hrun).
    apply bind_Returns in Hrun as (u3 & [ctx6 out6] & Hdel & Hrun).
    apply delScope_inv in Hdel as (_ & -> & _ & _).
    assert (Hout5 : out5 = if blockRecur
                           then (out ++ printed) ++ [RecursiveCall (func_ident f)]
                           else out ++ printed).
    { revert Hprint. destruct blockRecur; run; intros Heq; injection Heq as _ _ <-;
        reflexivity. }
    revert Hrun. run. intros Heq. injection Heq as Hb _ Hout. subst b out' out5.
    destruct blockRecur.
    + exists (printed ++ [RecursiveCall (func_ident f)]).
      rewrite app_assoc, andb_false_r.
      split; [reflexivity |]. split; [discriminate |].
      intros _ _ Hnil. apply app_eq_nil in Hnil as [_ Hnil]. discriminate.
    + rewrite andb_true_r. exists printed. auto.
Qed.

(** *** Verdicts *)

(** X16.  The check of a call never changes the context, and it passes
    exactly when the callee is registered, is given as many arguments
    as it has parameters, and every argument's type is the base type of
    its parameter.  An unregistered callee and a wrong number of
    arguments have each their own diagnostic, the latter with both
    counts. *)
Theorem NFunctionCall_semanticAnalysis_verdict (ident : string) (args : list expr)
    (ctx : SemanticContext) (out : list diagnostic) :
  exists b printed,
    NFunctionCall_semanticAnalysis ident args (ctx, out)
    = Returns (b, (ctx, out ++ printed)) /\
    (b = true <->
     exists func,
       searchFuncs ctx ident = Some func /\
       length (variables func) = length args /\
       Forall2 (fun a p => getType ctx a = var_type p) args (variables func)) /\
    (searchFuncs ctx ident = None -> printed = [CallUndefined ident]) /\
    (forall func,
        searchFuncs ctx ident = Some func ->
        length (variables func) <> length args ->
        printed = [CallArity ident (length (variables func)) (length args)]).
Proof.
  run. destruct (searchFuncs ctx ident) as [func |] eqn:Hfunc.
  - case_bool_decide as Hlen.
    + destruct (argsMatch ctx args (variables func)) eqn:Hmatch.
      * exists true, []. rewrite app_nil_r. split; [reflexivity |].
        split; [| split; [discriminate | intros func' Heq; injection Heq as <-; contradiction]].
        split; [| reflexivity]. intros _. exists func.
        split; [reflexivity |]. split; [assumption |].
        apply argsMatch_Forall2; assumption.
      * exists false, [CallMismatch ident]. split; [reflexivity |].
        split; [| split; [discriminate | intros func' Heq; injection Heq as <-; contradiction]].
        split; [discriminate |]. intros (func' & Heq & _ & Hall). injection Heq as <-.
        apply argsMatch_Forall2 in Hall; [congruence | assumption].
    + exists false, [CallArity ident (length (variables func)) (length args)].
      split; [reflexivity |].
      split; [| split; [discriminate | intros func' Heq _; injection Heq as <-; reflexivity]].
      split; [discriminate |]. intros (func' & Heq & Hlen' & _). injection Heq as <-.
      contradiction.
  - exists false, [CallUndefined ident]. split; [reflexivity |].
    split; [| split; [reflexivity | discriminate]].
    split; [discriminate |]. intros (func' & Heq & _). discriminate.
Qed.

(** X17.  A declaration whose identifier is already declared in the
    innermost scope is refused with the duplicate diagnostic and leaves
    the context as it is, its initializer not being looked at; one
    whose identifier is new there and that has no initializer passes
    silently and is the declaration found under its identifier
    afterwards, whatever outer scopes declare. *)
Theorem NVariableDeclaration_semanticAnalysis_verdict (fuel : nat)
    (d : NVariableDeclaration) (ctx : SemanticContext) (out : list diagnostic)
    (scopes : list (list NVariableDeclaration)) (scope : list NVariableDeclaration) :
  indexed ctx ->
  vars ctx = scopes ++ [scope] ->
  (declaredIn (var_ident d) scope ->
   semanticAnalysis fuel (NVariableDeclarationStmt d) (ctx, out)
   = Returns (false, (ctx, out ++ [DuplicateVar (var_ident d)]))) /\
  (~ declaredIn (var_ident d) scope ->
   initializationExpression d = None ->
   exists ctx',
     semanticAnalysis fuel (NVariableDeclarationStmt d) (ctx, out)
     = Returns (true, (ctx', out)) /\
     vars ctx' = scopes ++ [scope ++ [d]] /\
     searchVars ctx' (var_ident d) = Some d).
Proof.
  intros Hidx Hvars. cbn [semanticAnalysis].
  unfold NVariableDeclaration_semanticAnalysis. split.
  - intros Hdup. apply existsb_declaredIn in Hdup.
    unfold bind at 1. rewrite (registerVar_top d ctx out scopes scope Hidx Hvars), Hdup.
    reflexivity.
  - intros Hfresh Hnone.
    assert (Hnot : existsb (fun v => bool_decide (var_ident d = var_ident v)) scope = false).
    { apply not_true_is_false. rewrite existsb_declaredIn. assumption. }
    unfold bind at 1. rewrite (registerVar_top d ctx out scopes scope Hidx Hvars), Hnot.
    rewrite Hnone. eexists. split; [reflexivity |]. split; [reflexivity |].
    erewrite searchVars_top by reflexivity.
    rewrite (find_app_undeclared _ scope d Hfresh eq_refl). reflexivity.
Qed.

(** X18.  Assigning one declared variable to another, both of base
    types free of flag bits, passes exactly when the two have the same
    base type and are both scalar or both lists; the context is not
    changed and a refusal prints the assignment mismatch. *)
Theorem NAssignmentStatement_between_variables (fuel : nat) (x y : string)
    (v w : NVariableDeclaration) (ctx : SemanticContext) (out : list diagnostic) :
  searchVars ctx x = Some v ->
  searchVars ctx y = Some w ->
  flagFree (var_type v) -> flagFree (var_type w) ->
  exists b : bool,
    semanticAnalysis fuel (NAssignmentStatement x (NVariableAccess y)) (ctx, out)
    = Returns (b, (ctx, if b then out else out ++ [AssignmentMismatch x])) /\
    (b = true <->
     var_type v = var_type w /\ (var_size v = 1 <-> var_size w = 1)).
Proof.
  intros Hv Hw Hfv Hfw. cbn [semanticAnalysis]. run. rewrite Hv. cbn [getType].
  rewrite Hw.
  assert (Hiff : condType (bool_decide (var_size v = 1)) (var_type v)
                 = condType (bool_decide (var_size w = 1)) (var_type w) <->
                 var_type v = var_type w /\ (var_size v = 1 <-> var_size w = 1)).
  { rewrite !condType_flagFree by assumption.
    destruct Hfv as [Hlov Hhiv], Hfw as [Hlow Hhiw].
    destruct (decide (var_size v = 1)) as [Hsv | Hsv],
             (decide (var_size w = 1)) as [Hsw | Hsw];
      rewrite ?(bool_decide_eq_true_2 _ Hsv), ?(bool_decide_eq_false_2 _ Hsv),
        ?(bool_decide_eq_true_2 _ Hsw), ?(bool_decide_eq_false_2 _ Hsw); lia. }
  destruct (decide (condType (bool_decide (var_size v = 1)) (var_type v)
                    = condType (bool_decide (var_size w = 1)) (var_type w)))
    as [Heq | Hne].
  - rewrite (bool_decide_eq_true_2 _ Heq).
    exists true. split; [reflexivity |]. split; [intros _; apply Hiff, Heq | reflexivity].
  - rewrite (bool_decide_eq_false_2 _ Hne).
    exists false. split; [reflexivity |]. split; [discriminate |].
    intros Hsame. exfalso. apply Hne, Hiff, Hsame.
Qed.

(** X19.  In the scope entered for a function [f], returning the
    result of a call of a registered function [g] passes exactly when
    the effective return types of [f] and [g] are the same, whatever
    the arguments of the call are: the return check does not analyse
    the call. *)
Theorem NReturn_call_agreement (fuel : nat) (f g : NFunctionDeclaration)
    (ident : string) (args : list expr) (ctx : SemanticContext)
    (out : list diagnostic) :
  indexed ctx ->
  searchFuncs ctx ident = Some g ->
  exists ctx1 (b : bool) out',
    enterFunction f (ctx, out) = Returns (tt, (ctx1, out)) /\
    semanticAnalysis fuel (NReturn (NFunctionCall ident args)) (ctx1, out)
    = Returns (b, (ctx1, out')) /\
    (b = true <->
     condType (negb (listReturn g)) (func_type g)
     = condType (negb (listReturn f)) (func_type f)).
Proof.
  intros Hidx Hg.
  exists {| currScope := currScope ctx + 1;
            vars := vars ctx ++ [fold_left registerInto (variables f) []];
            currType := currType ctx ++ [condType (negb (listReturn f)) (func_type f)];
            funcs := funcs ctx |}.
  rewrite (enterFunction_eq f ctx out Hidx).
  cbn [semanticAnalysis]. run. cbn [currType]. rewrite last_snoc. cbn [getType].
  unfold searchFuncs in *. cbn [funcs]. rewrite Hg.
  destruct (decide (condType (negb (listReturn g)) (func_type g)
                    = condType (negb (listReturn f)) (func_type f))) as [Heq | Hne].
  - rewrite (bool_decide_eq_true_2 _ Heq). exists true, out. repeat split; auto.
  - rewrite (bool_decide_eq_false_2 _ Hne). eexists false, _.
    split; [reflexivity |]. split; [reflexivity |]. split; [discriminate | contradiction].
Qed.

(** *** The recursion check, continued *)

Lemma anyRecursion_true check statements :
  anyRecursion check statements = Returns true ->
  Exists (fun s => check s = Returns true) statements.
Proof.
  induction statements as [| s rest IH]; simpl; [discriminate |].
  destruct (check s) as [[|] | |] eqn:Hs; try discriminate.
  - intros _. apply Exists_cons_hd. assumption.
  - intros Hrest. apply Exists_cons_tl. auto.
Qed.

(** When a node answers true and inherited [checkRecursion] answers
    false, the node contains a call of the target or the call of a
    registered function whose body answered true. *)
Lemma checkRecursion_node_true ctx func callee s :
  Node_checkRecursion = false ->
  checkRecursion_node ctx func callee s = Returns true ->
  exists g, g ∈ callees s /\
    (g = func_ident func \/
     (g <> func_ident func /\
      exists fd, searchFuncs ctx g = Some fd /\ callee fd = Returns true)).
Proof.
  intros Hdefault.
  induction s as [statements IH | ident e | retExpr | e | d | f IH]
    using stmt_nested_ind; intros Hrun;
    try (simpl in Hrun; congruence).
  - simpl in Hrun. apply anyRecursion_true in Hrun.
    apply Exists_exists in Hrun as (s & Hs & Hrun).
    rewrite Forall_forall in IH. destruct (IH s Hs Hrun) as (g & Hg & Hcase).
    exists g. split; [| assumption]. apply callees_block. eauto.
  - destruct e; try (simpl in Hrun; congruence). simpl in Hrun.
    exists ident. split; [simpl; left |].
    case_bool_decide as Hid; [left; auto | right].
    split; [congruence |].
    destruct (searchFuncs ctx ident) as [fd |]; [eauto | discriminate].
Qed.

Lemma checkRecursion_true_complete fuel ctx func :
  Node_checkRecursion = false ->
  forall s,
    checkRecursion fuel ctx func s = Returns true ->
    visits ctx (func_ident func) s (func_ident func).
Proof.
  intros Hdefault. induction fuel as [| fuel IH]; intros s Hrun; simpl in Hrun;
    destruct (checkRecursion_node_true _ _ _ _ Hdefault Hrun)
      as (g & Hg & [-> | (Hne & fd & Hfd & Hbody)]);
    try (exists (func_ident func); split; [assumption | apply rtc_refl]).
  - discriminate.
  - destruct (IH _ Hbody) as (h0 & Hh0 & Hpath).
    exists g. split; [assumption |].
    apply (rtc_l _ g h0); [| assumption].
    split; [assumption |]. exists fd. auto.
Qed.

(** X20.  When the nodes that inherit [checkRecursion] answer false,
    an answer of the check is exact: it is true exactly when a chain of
    calls in statement position, through the bodies of registered
    functions, leads from the statement to the target. *)
Theorem checkRecursion_exact (fuel : nat) (ctx : SemanticContext)
    (func : NFunctionDeclaration) (s : stmt) (b : bool) :
  Node_checkRecursion = false ->
  checkRecursion fuel ctx func s = Returns b ->
  (b = true <-> visits ctx (func_ident func) s (func_ident func)).
Proof.
  intros Hdefault Hrun. destruct b.
  - split; [intros _ | reflexivity].
    apply (checkRecursion_true_complete fuel ctx func Hdefault s Hrun).
  - split; [discriminate |]. intros Hvisits. exfalso.
    apply (checkRecursion_false_sound _ _ _ _ Hrun Hvisits).
Qed.

(** X21.  Calls inside expressions are not seen: when the nodes that
    inherit [checkRecursion] answer false, a statement without a call
    in statement position, such as a return, an assignment or a
    declaration whose expression calls the target, is answered false
    for every target and every call depth. *)
Theorem checkRecursion_blind_to_expressions (fuel : nat) (ctx : SemanticContext)
    (func : NFunctionDeclaration) (s : stmt) :
  Node_checkRecursion = false ->
  callees s = [] ->
  checkRecursion fuel ctx func s = Returns false.
Proof.
  intros Hdefault Hnone.
  assert (Hreturns : exists b, checkRecursion fuel ctx func s = Returns b).
  { destruct fuel; simpl; apply checkRecursion_node_returns;
      intros g Hg; rewrite Hnone in Hg; inversion Hg. }
  destruct Hreturns as [[|] Hrun]; [| assumption].
  apply (checkRecursion_true_complete _ _ _ Hdefault) in Hrun as (g & Hg & _).
  rewrite Hnone in Hg. inversion Hg.
Qed.

Lemma allStatements_app_false analyse pre rest st st' :
  allStatements analyse pre st = Returns (false, st') ->
  allStatements analyse (pre ++ rest) st = Returns (false, st').
Proof.
  revert st. induction pre as [| s pre IH]; intros st; simpl.
  - unfold ret. discriminate.
  - intros Hrun. apply bind_Returns in Hrun as (ok & st1 & Hfirst & Hrest).
    rewrite (bind_eq _ _ _ _ _ Hfirst). destruct ok; [apply IH |]; assumption.
Qed.

(** X22.  Blocks fail fast: once a statement of a block has failed,
    the statements after it are not looked at; the outcome is the same
    whatever follows, be it a statement whose own check would be
    undefined behaviour. *)
Theorem NBlock_fail_fast (fuel : nat) (pre rest : list stmt)
    (ctx : SemanticContext) (out : list diagnostic) (st' : state) :
  semanticAnalysis fuel (NBlock pre) (ctx, out) = Returns (false, st') ->
  semanticAnalysis fuel (NBlock (pre ++ rest)) (ctx, out) = Returns (false, st').
Proof.
  cbn [semanticAnalysis]. unfold NBlock_semanticAnalysis. intros Hrun.
  apply bind_Returns in Hrun as (type & st0 & Hback & Hrun).
  rewrite (bind_eq _ _ _ _ _ Hback).
  apply bind_Returns in Hrun as (u & st1 & Hnew & Hrun).
  rewrite (bind_eq _ _ _ _ _ Hnew).
  apply bind_Returns in Hrun as (ok & st2 & Hloop & Hrun).
  destruct ok.
  - apply bind_Returns in Hrun as (u' & st3 & _ & Hret). revert Hret. run. discriminate.
  - rewrite (bind_eq _ _ _ _ _ (allStatements_app_false _ _ rest _ _ Hloop)).
    exact Hrun.
Qed.

Lemma anyRecursion_app_true check pre rest :
  anyRecursion check pre = Returns true ->
  anyRecursion check (pre ++ rest) = Returns true.
Proof.
  induction pre as [| s pre IH]; simpl; [discriminate |].
  destruct (check s) as [[|] | |]; auto.
Qed.

(** X23.  The recursion check of a block stops at the first statement
    answered true: the answer stays true whatever statements follow,
    even the call of an unregistered function, on which the check alone
    is undefined behaviour. *)
Theorem checkRecursion_short_circuit (fuel : nat) (ctx : SemanticContext)
    (func : NFunctionDeclaration) (pre rest : list stmt) :
  checkRecursion fuel ctx func (NBlock pre) = Returns true ->
  checkRecursion fuel ctx func (NBlock (pre ++ rest)) = Returns true.
Proof.
  destruct fuel; simpl; apply anyRecursion_app_true.
Qed.

(** X24.  Recursion through a return expression goes unnoticed: when
    the nodes that inherit [checkRecursion] answer false, a registered
    function whose body is the return of a call of itself passes its
    check, silently, for every call depth and whatever the arguments
    of the call. *)
Theorem recursion_in_return_accepted (fuel : nat) (f : NFunctionDeclaration)
    (args : list expr) (ctx : SemanticContext) (out : list diagnostic) :
  Node_checkRecursion = false ->
  indexed ctx ->
  searchFuncs ctx (func_ident f) = Some f ->
  body f = [NReturn (NFunctionCall (func_ident f) args)] ->
  semanticAnalysis fuel (NFunctionDeclarationStmt f) (ctx, out)
  = Returns (true, (ctx, out)).
Proof.
  intros Hdefault Hidx Hf Hbody.
  pose proof (enterFunction_eq f ctx out Hidx) as Henter.
  set (type := condType (negb (listReturn f)) (func_type f)) in *.
  set (ctx1 := {| currScope := currScope ctx + 1;
                  vars := vars ctx ++ [fold_left registerInto (variables f) []];
                  currType := currType ctx ++ [type];
                  funcs := funcs ctx |}) in *.
  assert (Hidx1 : indexed ctx1).
  { unfold indexed in *. cbn [ctx1 currScope vars]. rewrite length_app. simpl. lia. }
  assert (Hrun : exists ctx2,
             semanticAnalysis fuel (NBlock (body f)) (ctx1, out)
             = Returns (true, (ctx2, out))).
  { rewrite Hbody. cbn [semanticAnalysis]. unfold NBlock_semanticAnalysis.
    unfold currTypeBack at 1. unfold bind at 1. unfold bind at 1. unfold getCtx at 1.
    cbn [fst ctx1 currType]. rewrite last_snoc. unfold ret at 1.
    rewrite (bind_eq _ _ _ _ _ (newScope_eq type ctx1 out)).
    cbn [allStatements semanticAnalysis]. unfold NReturn_semanticAnalysis, currTypeBack.
    unfold bind, getCtx, ret. cbn [fst snd currType getType].
    rewrite last_snoc. unfold searchFuncs in *. cbn [funcs ctx1]. rewrite Hf.
    fold type. rewrite bool_decide_eq_true_2 by reflexivity.
    erewrite delScope_snoc; [| reflexivity | reflexivity]. eauto. }
  destruct Hrun as [ctx2 Hrun].
  assert (ctx2 = ctx1) as ->.
  { pose proof Hrun as Hrun'. cbn [semanticAnalysis] in Hrun'.
    apply NBlock_semanticAnalysis_framed in Hrun' as (_ & _ & Hsame); auto.
    apply Forall_forall. intros s _. apply semanticAnalysis_framed. }
  rewrite (NFunctionDeclaration_run _ _ _ _ _ _ _ _ _ Henter Hrun).
  assert (Hrec : checkRecursion fuel ctx f (NBlock (body f)) = Returns false).
  { assert (Hnone : callees (NBlock (body f)) = []) by (rewrite Hbody; reflexivity).
    assert (Hreturns : exists b, checkRecursion fuel ctx f (NBlock (body f)) = Returns b).
    { destruct fuel; cbn [checkRecursion]; apply checkRecursion_node_returns;
        intros g Hg; rewrite Hnone in Hg; inversion Hg. }
    destruct Hreturns as [[|] Hrec]; [| assumption].
    apply (checkRecursion_true_complete _ _ _ Hdefault) in Hrec as (g & Hg & _).
    rewrite Hnone in Hg. inversion Hg. }
  rewrite Hrec.
  erewrite (bind_eq _ _ _ _ _ (delScope_snoc ctx1 out _ _ _ _ eq_refl eq_refl)).
  unfold ret. cbn [ctx1 currScope funcs andb negb]. do 3 f_equal.
  destruct ctx. simpl. f_equal. lia.
Qed.

(** X25.  A binary operation on two declared variables, both of base
    types free of flag bits, passes exactly when the two have the same
    base type and are both scalar or both lists, whatever the operator
    is; the context is not changed and a refusal prints the operator. *)
Theorem NBinaryOperator_between_variables (op : Z) (x y : string)
    (v w : NVariableDeclaration) (ctx : SemanticContext) (out : list diagnostic) :
  searchVars ctx x = Some v ->
  searchVars ctx y = Some w ->
  flagFree (var_type v) -> flagFree (var_type w) ->
  exists b : bool,
    NBinaryOperator_semanticAnalysis op (NVariableAccess x) (NVariableAccess y) (ctx, out)
    = Returns (b, (ctx, if b then out else out ++ [BinaryOperatorMismatch op])) /\
    (b = true <->
     var_type v = var_type w /\ (var_size v = 1 <-> var_size w = 1)).
Proof.
  intros Hv Hw Hfv Hfw. run. cbn [getType]. rewrite Hv, Hw.
  assert (Hiff : condType (bool_decide (var_size v = 1)) (var_type v)
                 = condType (bool_decide (var_size w = 1)) (var_type w) <->
                 var_type v = var_type w /\ (var_size v = 1 <-> var_size w = 1)).
  { rewrite !condType_flagFree by assumption.
    destruct Hfv as [Hlov Hhiv], Hfw as [Hlow Hhiw].
    destruct (decide (var_size v = 1)) as [Hsv | Hsv],
             (decide (var_size w = 1)) as [Hsw | Hsw];
      rewrite ?(bool_decide_eq_true_2 _ Hsv), ?(bool_decide_eq_false_2 _ Hsv),
        ?(bool_decide_eq_true_2 _ Hsw), ?(bool_decide_eq_false_2 _ Hsw); lia. }
  destruct (decide (condType (bool_decide (var_size v = 1)) (var_type v)
                    = condType (bool_decide (var_size w = 1)) (var_type w)))
    as [Heq | Hne].
  - rewrite (bool_decide_eq_true_2 _ Heq).
    exists true. split; [reflexivity |]. split; [intros _; apply Hiff, Heq | reflexivity].
  - rewrite (bool_decide_eq_false_2 _ Hne).
    exists false. split; [reflexivity |]. split; [discriminate |].
    intros Hsame. exfalso. apply Hne, Hiff, Hsame.
Qed.

End Methods.

(** ** The properties on sample programs

    Nodes that do not override a method are taken to pass
    [semanticAnalysis] and to report no recursion, and binary
    operations to have type [0]. *)

Local Abbreviation binop0 := (fun (_ : SemanticContext) (_ : Z) (_ _ : expr) => 0).
Local Abbreviation getType0 := (getType binop0).
Local Abbreviation semanticAnalysis0 := (semanticAnalysis true false binop0).
Local Abbreviation checkRecursion0 := (checkRecursion false).

Lemma NList_getType_cases_witness :
  getType0 rootCtx (NList [NValue 1; NValue 1; NValue 1]) = -268435455 /\
  Z.testbit (getType0 rootCtx (NList [NValue 1; NValue 1; NValue 1])) 28 = true /\
  getType0 rootCtx (NList [NValue 1; NValue 1; NValue 1]) <> 1 /\
  getType0 rootCtx (NList [NValue 1; NValue 2]) = 0 /\
  getType0 rootCtx (NList []) = 0.
Proof.
  destruct (NList_getType_cases binop0 rootCtx) as (Hempty & Hsame & Hdiff).
  destruct (Hsame (NValue 1) [NValue 1; NValue 1] 1 eq_refl
              ltac:(repeat constructor)) as (Hvalue & Hbits & _ & Hother).
  split; [exact Hvalue |].
  split; [exact (Hbits 28 ltac:(lia)) |].
  split; [apply Hother; lia |].
  split; [| exact Hempty].
  apply (Hdiff (NValue 1) [NValue 2]). apply Exists_cons_hd. simpl. lia.
Defined.

Lemma NReturn_semanticAnalysis_iff_witness :
  exists b out',
    semanticAnalysis0 0 (NReturn (NValue 1)) (rootCtx, []) = Returns (b, (rootCtx, out')) /\
    (b = true <-> getType0 rootCtx (NValue 1) = 0) /\
    out' = (if b then [] else [] ++ [ReturnMismatch (getType0 rootCtx (NValue 1)) 0]).
Proof.
  apply (NReturn_semanticAnalysis_iff true false binop0 0%nat (NValue 1) rootCtx [] 0).
  reflexivity.
Defined.

Lemma NAssignmentStatement_absent_target_witness :
  semanticAnalysis0 0 (NAssignmentStatement "x" (NValue 1)) (rootCtx, []) = Undefined.
Proof.
  apply (NAssignmentStatement_absent_target true false binop0). reflexivity.
Defined.

(** C2, as stated, fails: a list argument of base type 1 does not pass
    for a scalar parameter of base type 1. *)
Lemma NFunctionCall_list_argument_rejected :
  searchFuncs takesScalarCtx "f" = Some takesScalar /\
  variables takesScalar = [scalarParam] /\
  var_size scalarParam = 1 /\
  getType0 takesScalarCtx (NList [NValue 1]) = listType (var_type scalarParam) /\
  NFunctionCall_semanticAnalysis binop0 "f" [NList [NValue 1]] (takesScalarCtx, [])
  = Returns (false, (takesScalarCtx, [CallMismatch "f"])).
Proof. repeat split. Qed.

Lemma NFunctionCall_semanticAnalysis_args_witness :
  NFunctionCall_semanticAnalysis binop0 "f" [NList [NValue 1]] (takesScalarCtx, [])
  = Returns (false, (takesScalarCtx, [] ++ [CallMismatch "f"])).
Proof.
  apply (proj2 (NFunctionCall_semanticAnalysis_args binop0 "f" [NList [NValue 1]]
                  takesScalar takesScalarCtx [] eq_refl eq_refl)
           0%nat (NList [NValue 1]) scalarParam eq_refl eq_refl).
  - simpl. lia.
  - reflexivity.
Defined.

Lemma shadowing_round_trip_witness :
  exists ctx1 ctx2 ctx3 ctx4,
    registerVar outerX (rootCtx, []) = Returns (true, (ctx1, [])) /\
    registerVar innerX (ctx1, []) = Returns (false, (ctx1, [])) /\
    newScope 0 (ctx1, []) = Returns (tt, (ctx2, [])) /\
    registerVar innerX (ctx2, []) = Returns (true, (ctx3, [])) /\
    searchVars ctx3 (var_ident outerX) = Some innerX /\
    delScope (ctx3, []) = Returns (tt, (ctx4, [])) /\
    searchVars ctx4 (var_ident outerX) = Some outerX.
Proof.
  apply (shadowing_round_trip outerX innerX 0 rootCtx [] []).
  - reflexivity.
  - reflexivity.
  - intros (v & Hin & _). inversion Hin.
  - reflexivity.
Defined.

Lemma NVariableDeclaration_not_atomic_witness :
  searchVars rootCtx "x" = None /\
  semanticAnalysis0 0 (NVariableDeclarationStmt badX) (rootCtx, [])
  = Returns (false, ({| currScope := 0; vars := [[badX]]; currType := [0]; funcs := [] |},
                     [VarMismatch "x"])) /\
  searchVars {| currScope := 0; vars := [[badX]]; currType := [0]; funcs := [] |} "x"
  = Some badX.
Proof.
  split; [reflexivity |]. split; [reflexivity |].
  apply (NVariableDeclaration_not_atomic true false binop0 0%nat badX rootCtx
           {| currScope := 0; vars := [[badX]]; currType := [0]; funcs := [] |}
           [] [VarMismatch "x"] [] []).
  - reflexivity.
  - reflexivity.
  - intros (v & Hin & _). inversion Hin.
  - reflexivity.
Defined.

Lemma NBlock_failure_keeps_scope_witness :
  semanticAnalysis0 0 (NBlock [NReturn (NValue 1)]) (rootCtx, [])
  = Returns (false, ({| currScope := 1; vars := [[]; []]; currType := [0; 0]; funcs := [] |},
                     [ReturnMismatch 1 0])) /\
  (length (vars rootCtx) < 2)%nat.
Proof.
  split; [reflexivity |].
  apply (NBlock_failure_keeps_scope true false binop0 0%nat [NReturn (NValue 1)] rootCtx
           {| currScope := 1; vars := [[]; []]; currType := [0; 0]; funcs := [] |}
           [] [ReturnMismatch 1 0]).
  reflexivity.
Defined.

Lemma chain_calls f g : calls chainCtx f g -> f = "main" /\ g = "leaf".
Proof.
  intros (fd & Hfd & Hg). unfold searchFuncs in Hfd. simpl in Hfd.
  repeat case_bool_decide; try discriminate; injection Hfd as <-; simpl in Hg.
  - apply list_elem_of_singleton in Hg. auto.
  - inversion Hg.
Qed.

Lemma chain_acyclic : acyclic chainCtx.
Proof.
  assert (Hpath : forall f g, tc (calls chainCtx) f g -> f = "main" /\ g = "leaf").
  { induction 1 as [f g Hstep | f g h Hstep _ [Heq _]].
    - apply chain_calls. assumption.
    - apply chain_calls in Hstep as [_ ->]. discriminate. }
  intros f Hcycle. destruct (Hpath f f Hcycle) as [-> Heq]. discriminate.
Qed.

Lemma chain_resolved : resolved chainCtx.
Proof.
  intros f g Hstep. apply chain_calls in Hstep as [-> ->].
  exists chainLeaf. reflexivity.
Qed.

Lemma checkRecursion_termination_witness :
  exists b, forall fuel,
      (length (funcs chainCtx) <= fuel)%nat ->
      checkRecursion0 fuel chainCtx chainMain (NBlock (body chainMain)) = Returns b.
Proof.
  apply (proj2 (checkRecursion_termination false) chainCtx chainMain
           (NBlock (body chainMain)) chain_acyclic chain_resolved).
  intros g Hg. simpl in Hg. apply list_elem_of_singleton in Hg as ->.
  exists chainLeaf. reflexivity.
Defined.




(** Both are rejected with the recursion diagnostic. *)
Lemma direct_recursion_rejected :
  semanticAnalysis0 1 (NFunctionDeclarationStmt selfF) (selfCtx, [])
  = Returns (false, (selfCtx, [RecursiveCall "f"])).
Proof. reflexivity. Qed.

Lemma indirect_recursion_rejected :
  semanticAnalysis0 1 (NFunctionDeclarationStmt mutualF) (mutualCtx, [])
  = Returns (false, (mutualCtx, [RecursiveCall "f"])) /\
  semanticAnalysis0 1 (NFunctionDeclarationStmt mutualG) (mutualCtx, [])
  = Returns (false, (mutualCtx, [RecursiveCall "g"])).
Proof. split; reflexivity. Qed.


(** ** The further properties on sample programs *)

Lemma condType_faithful_witness :
  condType true 1 = condType false 1 <-> true = false /\ 1 = 1.
Proof. apply (condType_faithful true false 1 1); unfold flagFree; lia. Defined.

Lemma NList_getType_zero_iff_witness :
  getType0 rootCtx (NList [NValue 1; NValue 2]) = 0.
Proof.
  apply (NList_getType_zero_iff binop0 rootCtx [NValue 1; NValue 2]).
  right. exists (NValue 1), [NValue 2]. split; [reflexivity |].
  apply Exists_cons_hd. simpl. lia.
Defined.

Lemma registerFunc_round_trip_witness :
  exists b ctx',
    registerFunc selfF (selfCtx, []) = Returns (b, (ctx', [])) /\
    b = false /\ ctx' = selfCtx.
Proof.
  destruct (registerFunc_round_trip selfF selfCtx [])
    as (b & ctx' & Hrun & Hdup & Hsame & _).
  assert (Hb : b = false) by (apply Hdup; exists selfF; reflexivity).
  exists b, ctx'. split; [exact Hrun |]. split; [exact Hb | exact (Hsame Hb)].
Defined.

Lemma registerFunc_unique_witness :
  uniqueFuncs {| currScope := 0; vars := [[]]; currType := [0];
                 funcs := [selfF; chainLeaf] |}.
Proof.
  apply (registerFunc_unique chainLeaf selfCtx _ [] [] true); [reflexivity |].
  unfold uniqueFuncs. simpl. apply NoDup_singleton.
Defined.

Lemma searchFuncs_exact_witness :
  searchFuncs mutualCtx "g" = Some mutualG.
Proof.
  apply (proj2 (proj2 (searchFuncs_exact mutualCtx "g"))).
  - unfold uniqueFuncs. simpl. apply NoDup_cons. split; [| apply NoDup_singleton].
    intros Hin. apply list_elem_of_singleton in Hin. discriminate.
  - simpl. right. left.
  - reflexivity.
Defined.

Lemma registerStruct_round_trip_witness :
  searchStructs (snd (registerStruct pointS [])) "point" = Some pointS.
Proof.
  apply (proj1 (proj2 (proj2 (registerStruct_round_trip pointS [])))). reflexivity.
Defined.

Lemma searchVars_exact_witness : searchVars rootCtx "x" = None.
Proof.
  apply (proj2 (proj2 (searchVars_exact rootCtx "x"))).
  intros scope Hin (v & Hv & _). simpl in Hin.
  apply list_elem_of_singleton in Hin as ->. inversion Hv.
Defined.

Lemma searchVars_innermost_witness : searchVars nestedCtx "x" = Some innerX.
Proof.
  apply (searchVars_innermost nestedCtx "x" [[outerX]] [] [innerX]);
    [reflexivity | constructor].
Defined.

Lemma scope_round_trip_witness :
  (newScope 1 ;;; registerAll [outerX; innerX; listY] ;;; delScope) (rootCtx, [])
  = Returns (tt, (rootCtx, [])).
Proof. apply scope_round_trip. reflexivity. Defined.

Lemma enterFunction_resolution_witness :
  [] = @nil diagnostic /\
  searchVars {| currScope := 1; vars := [[]; [scalarParam]]; currType := [0; 0];
                funcs := [] |} "n"
  = Some scalarParam.
Proof.
  apply (enterFunction_resolution twiceN rootCtx
           {| currScope := 1; vars := [[]; [scalarParam]]; currType := [0; 0];
              funcs := [] |} [] [] "n"); reflexivity.
Defined.

Lemma semanticAnalysis_keeps_outer_scopes_witness :
  removelast (vars nestedCtx) `prefix_of` [[outerX]; [innerX; listY]] /\
  currType nestedCtx `prefix_of` [0; 0].
Proof.
  apply (semanticAnalysis_keeps_outer_scopes true false binop0 0%nat
           (NVariableDeclarationStmt listY) nestedCtx
           {| currScope := 1; vars := [[outerX]; [innerX; listY]]; currType := [0; 0];
              funcs := [] |} [] [] true).
  - reflexivity.
  - discriminate.
  - reflexivity.
Defined.

Lemma NBlock_success_restores_witness :
  semanticAnalysis0 0 (NBlock [NVariableDeclarationStmt outerX]) (rootCtx, [])
  = Returns (true, (rootCtx, [])) /\
  rootCtx = rootCtx.
Proof.
  split; [reflexivity |].
  apply (NBlock_success_restores true false binop0 0%nat
           [NVariableDeclarationStmt outerX] rootCtx rootCtx [] []); reflexivity.
Defined.

Lemma NFunctionDeclaration_success_restores_witness :
  semanticAnalysis0 0 (NFunctionDeclarationStmt takesScalar) (takesScalarCtx, [])
  = Returns (true, (takesScalarCtx, [])) /\
  takesScalarCtx = takesScalarCtx.
Proof.
  split; [reflexivity |].
  apply (NFunctionDeclaration_success_restores true false binop0 0%nat
           takesScalar takesScalarCtx takesScalarCtx [] []); reflexivity.
Defined.

Lemma semanticAnalysis_invariants_witness :
  uniqueScopes {| currScope := 0; vars := [[outerX]]; currType := [0]; funcs := [] |}.
Proof.
  apply (semanticAnalysis_invariants true false binop0 0%nat
           (NVariableDeclarationStmt outerX) rootCtx
           {| currScope := 0; vars := [[outerX]]; currType := [0]; funcs := [] |}
           [] [] true); [reflexivity |].
  unfold uniqueScopes. simpl. repeat constructor.
Defined.

Lemma semanticAnalysis_diagnostics_witness :
  exists printed,
    [ReturnMismatch 1 0] = [] ++ printed /\
    (false = true -> printed = []) /\
    (true = true -> false = false -> printed <> []).
Proof.
  apply (semanticAnalysis_diagnostics true false binop0 0%nat (NReturn (NValue 1))
           rootCtx rootCtx [] [ReturnMismatch 1 0] false).
  reflexivity.
Defined.

Lemma NFunctionCall_semanticAnalysis_verdict_witness :
  exists b printed,
    NFunctionCall_semanticAnalysis binop0 "g" [] (rootCtx, [])
    = Returns (b, (rootCtx, [] ++ printed)) /\
    printed = [CallUndefined "g"].
Proof.
  destruct (NFunctionCall_semanticAnalysis_verdict binop0 "g" [] rootCtx [])
    as (b & printed & Hrun & _ & Hundefined & _).
  exists b, printed. split; [exact Hrun | apply Hundefined; reflexivity].
Defined.

Lemma NVariableDeclaration_semanticAnalysis_verdict_witness :
  semanticAnalysis0 0 (NVariableDeclarationStmt innerX) (xyCtx, [])
  = Returns (false, (xyCtx, [] ++ [DuplicateVar (var_ident innerX)])).
Proof.
  apply (proj1 (NVariableDeclaration_semanticAnalysis_verdict true false binop0 0%nat
                  innerX xyCtx [] [] [outerX; listY] eq_refl eq_refl)).
  exists outerX. split; [left | reflexivity].
Defined.

Lemma NAssignmentStatement_between_variables_witness :
  exists b : bool,
    semanticAnalysis0 0 (NAssignmentStatement "x" (NVariableAccess "y")) (xyCtx, [])
    = Returns (b, (xyCtx, if b then [] else [] ++ [AssignmentMismatch "x"])) /\
    (b = true <->
     var_type outerX = var_type listY /\ (var_size outerX = 1 <-> var_size listY = 1)).
Proof.
  apply (NAssignmentStatement_between_variables true false binop0 0%nat "x" "y"
           outerX listY xyCtx []).
  - reflexivity.
  - reflexivity.
  - unfold flagFree. simpl. lia.
  - unfold flagFree. simpl. lia.
Defined.

Lemma NReturn_call_agreement_witness :
  exists ctx1 (b : bool) out',
    enterFunction takesScalar (returnSelfCtx, []) = Returns (tt, (ctx1, [])) /\
    semanticAnalysis0 0 (NReturn (NFunctionCall "f" [])) (ctx1, [])
    = Returns (b, (ctx1, out')) /\
    (b = true <->
     condType (negb (listReturn returnSelf)) (func_type returnSelf)
     = condType (negb (listReturn takesScalar)) (func_type takesScalar)).
Proof.
  apply (NReturn_call_agreement true false binop0 0%nat takesScalar returnSelf "f" []
           returnSelfCtx []); reflexivity.
Defined.

Lemma checkRecursion_exact_witness :
  true = true <-> visits mutualCtx "f" (NBlock (body mutualF)) "f".
Proof.
  apply (checkRecursion_exact false 1%nat mutualCtx mutualF (NBlock (body mutualF)) true);
    reflexivity.
Defined.

Lemma checkRecursion_blind_to_expressions_witness :
  checkRecursion0 0 returnSelfCtx returnSelf (NBlock (body returnSelf)) = Returns false.
Proof.
  apply (checkRecursion_blind_to_expressions false); reflexivity.
Defined.

Lemma NBlock_fail_fast_witness :
  semanticAnalysis0 0 (NAssignmentStatement "x" (NValue 1)) (rootCtx, []) = Undefined /\
  semanticAnalysis0 0
    (NBlock ([NReturn (NValue 1)] ++ [NAssignmentStatement "x" (NValue 1)])) (rootCtx, [])
  = Returns (false, ({| currScope := 1; vars := [[]; []]; currType := [0; 0];
                        funcs := [] |}, [ReturnMismatch 1 0])).
Proof.
  split; [reflexivity |].
  apply (NBlock_fail_fast true false binop0 0%nat [NReturn (NValue 1)]
           [NAssignmentStatement "x" (NValue 1)] rootCtx []).
  reflexivity.
Defined.

Lemma checkRecursion_short_circuit_witness :
  checkRecursion0 0 selfCtx selfF (NBlock [callStmt "nowhere"]) = Undefined /\
  checkRecursion0 0 selfCtx selfF (NBlock ([callStmt "f"] ++ [callStmt "nowhere"]))
  = Returns true.
Proof.
  split; [reflexivity |].
  apply (checkRecursion_short_circuit false). reflexivity.
Defined.

Lemma recursion_in_return_accepted_witness :
  semanticAnalysis0 0 (NFunctionDeclarationStmt returnSelf) (returnSelfCtx, [])
  = Returns (true, (returnSelfCtx, [])).
Proof.
  apply (recursion_in_return_accepted true false binop0 0%nat returnSelf []
           returnSelfCtx []); reflexivity.
Defined.

Lemma NBinaryOperator_between_variables_witness :
  exists b : bool,
    NBinaryOperator_semanticAnalysis binop0 43 (NVariableAccess "x") (NVariableAccess "y")
      (xyCtx, [])
    = Returns (b, (xyCtx, if b then [] else [] ++ [BinaryOperatorMismatch 43])) /\
    (b = true <->
     var_type outerX = var_type listY /\ (var_size outerX = 1 <-> var_size listY = 1)).
Proof.
  apply (NBinaryOperator_between_variables binop0 43 "x" "y" outerX listY xyCtx []).
  - reflexivity.
  - reflexivity.
  - unfold flagFree. simpl. lia.
  - unfold flagFree. simpl. lia.
Defined.
